(** * Tag association and prediction engine (KnowledgeGraphService)

    A shallow embedding of the [KnowledgeGraphService] class of the snippet
    organizer (script.js): [_getPairKey], [learn], [_incrementStat] and
    [predict], together with the parts of the JavaScript runtime and of
    IndexedDB that these four methods rely on, and of the repository and
    the user interface around them.

    - JavaScript values that can reach the service are [jsval]. The
      numbers of the model are the integers of absolute value at most
      2^53: each of them is exactly one double, prints as its decimal
      numeral and is a valid key. Fractions, larger numbers, NaN and the
      infinities are outside the model; -0 is not told apart from 0, as
      no operation used here does.
    - Strings are [string]; tag names produced by [parseTags] match
      [[\w-]+] and are therefore ASCII, for which the byte order of
      [String.compare] is the code-unit order JavaScript sorts by.
    - An IndexedDB object store is a [gmap] from keys to records; [getAll]
      enumerates it in ascending key order.
    - A readwrite transaction is the queue of the requests placed on it.
      [learn] only places [get] requests and returns; the [put]s are placed
      by the [onsuccess] callbacks, which fire after [learn] has returned.
    - [Date.now()] is read by the callbacks, each on its own: a clock
      [now] gives the time the callback of the i-th request of a
      transaction reads. *)

From stdpp Require Import base numbers option list strings pretty countable gmap fin_maps sorting.
From Stdlib Require Import ZArith Lia.
From Stdlib Require Import Strings.Ascii.
From Stdlib Require Strings.String.

Local Open Scope Z_scope.
Local Open Scope string_scope.

(** ** JavaScript values *)

Module JS.

(** *** Numbers *)

(** The integers a double holds exactly, one by one: up to 2^53. *)
Definition exactb (n : Z) : bool := ((- 2 ^ 53 <=? n) && (n <=? 2 ^ 53))%Z.

Record number := Number {
  Number_val :> Z;
  Number_exact : Is_true (exactb Number_val)
}.

#[global] Instance number_eq_dec : EqDecision number.
Proof.
  intros [a pa] [b pb].
  destruct (decide (a = b)) as [Heq|Hne].
  - left. subst b. f_equal. apply proof_irrel.
  - right. intros [= ?]. by apply Hne.
Defined.

Definition clamp (z : Z) : Z := Z.max (- 2 ^ 53) (Z.min z (2 ^ 53)).

Definition zero : number := Number 0 I.

Definition checked (z : Z) : option number :=
  match decide (Is_true (exactb z)) with
  | left p => Some (Number z p)
  | right _ => None
  end.

(** The number of the model for an integer; an integer out of range is
    taken to the nearest bound. *)
Definition num (z : Z) : number := default zero (checked (clamp z)).

(** [n + 1] and [n++] on a number of the model. The sum is exact up to
    2^53; 2^53 + 1 lies halfway between the doubles 2^53 and 2^53 + 2 and
    is rounded to the even one, 2^53. *)
Definition Number_inc (n : number) : number := num (n + 1).

(** The double nearest to an integer, a tie going to the even
    significand. Above 2^53 the doubles of a binade lie [ulp] apart. *)
Definition to_double (z : Z) : Z :=
  let a := Z.abs z in
  if (a <=? 2 ^ 53)%Z then z
  else
    let ulp := 2 ^ (Z.log2 a - 52) in
    let q := a / ulp in
    let r := a mod ulp in
    let q' := if (2 * r <? ulp)%Z then q
              else if (ulp <? 2 * r)%Z then q + 1
              else if Z.even q then q else q + 1 in
    Z.sgn z * (q' * ulp).

(** [a + b] on two integral doubles. *)
Definition Number_add (a b : Z) : Z := to_double (a + b).

(** *** Values *)

Inductive jsval :=
| JUndefined
| JNull
| JBool (b : bool)
| JNum (n : number)
| JStr (s : string).

#[global] Instance jsval_eq_dec : EqDecision jsval.
Proof. solve_decision. Defined.

(** [String(v)], the conversion used by [sort], [join] and property keys. *)
Definition ToString (v : jsval) : string :=
  match v with
  | JUndefined => "undefined"
  | JNull => "null"
  | JBool true => "true"
  | JBool false => "false"
  | JNum n => pretty (Number_val n)
  | JStr s => s
  end.

(** Truthiness of an optional string argument such as [domain]:
    [null] and the empty string are falsy. *)
Definition truthy (d : option string) : bool :=
  match d with
  | Some s => negb (String.eqb s EmptyString)
  | None => false
  end.

(** *** Arrays *)

(** [Array.prototype.sort(cmp)] with a consistent comparator is stable:
    an element stays in front of the later elements it does not compare
    greater than. *)
Fixpoint sort_insert {A} (cmp : A -> A -> Z) (x : A) (l : list A) : list A :=
  match l with
  | [] => [x]
  | y :: l' =>
      if bool_decide (cmp x y <= 0) then x :: y :: l'
      else y :: sort_insert cmp x l'
  end.

Definition Array_sort {A} (cmp : A -> A -> Z) (l : list A) : list A :=
  foldr (sort_insert cmp) [] l.

(** The comparison [sort()] uses when it is given no comparator:
    [undefined] goes last, everything else is compared as strings. *)
Definition SortCompare (x y : jsval) : Z :=
  match x, y with
  | JUndefined, JUndefined => 0
  | JUndefined, _ => 1
  | _, JUndefined => -1
  | _, _ =>
      if String.ltb (ToString x) (ToString y) then -1
      else if String.ltb (ToString y) (ToString x) then 1
      else 0
  end.

(** [Array.prototype.join(sep)]: [undefined] and [null] print as nothing. *)
Definition join_elem (v : jsval) : string :=
  match v with
  | JUndefined | JNull => EmptyString
  | _ => ToString v
  end.

Fixpoint Array_join (sep : string) (l : list jsval) : string :=
  match l with
  | [] => EmptyString
  | [v] => join_elem v
  | v :: l' => join_elem v +:+ sep +:+ Array_join sep l'
  end.

(** [Array.prototype.includes] (SameValueZero on the modelled values). *)
Definition Array_includes (l : list jsval) (v : jsval) : bool :=
  bool_decide (v ∈ l).

(** [arr[i]]: reading past the end gives [undefined]. *)
Definition Array_at (l : list string) (i : nat) : jsval :=
  match l !! i with
  | Some s => JStr s
  | None => JUndefined
  end.

(** *** Strings *)

(** [String.prototype.split(sep)] for a one-character separator: the
    pieces between the occurrences of [sep], in order. *)
Fixpoint String_split (sep : Ascii.ascii) (s : string) : list string :=
  match s with
  | EmptyString => [EmptyString]
  | String c s' =>
      if Ascii.eqb c sep then EmptyString :: String_split sep s'
      else
        match String_split sep s' with
        | piece :: pieces => String c piece :: pieces
        | [] => [String c EmptyString]
        end
  end.

(** The string holds no occurrence of [sep]. *)
Fixpoint free_of (sep : Ascii.ascii) (s : string) : bool :=
  match s with
  | EmptyString => true
  | String c s' => negb (Ascii.eqb c sep) && free_of sep s'
  end.

(** *** Plain objects used as dictionaries *)

(** The functions a plain object inherits from [Object.prototype]. Next
    to them the prototype has the accessor [__proto__]. *)
Inductive builtin :=
| Fconstructor
| FdefineGetter
| FdefineSetter
| FhasOwnProperty
| FlookupGetter
| FlookupSetter
| FisPrototypeOf
| FpropertyIsEnumerable
| FtoString
| FvalueOf
| FtoLocaleString.

#[global] Instance builtin_eq_dec : EqDecision builtin.
Proof. solve_decision. Defined.

Definition Object_prototype (key : string) : option builtin :=
  if String.eqb key "constructor" then Some Fconstructor
  else if String.eqb key "__defineGetter__" then Some FdefineGetter
  else if String.eqb key "__defineSetter__" then Some FdefineSetter
  else if String.eqb key "hasOwnProperty" then Some FhasOwnProperty
  else if String.eqb key "__lookupGetter__" then Some FlookupGetter
  else if String.eqb key "__lookupSetter__" then Some FlookupSetter
  else if String.eqb key "isPrototypeOf" then Some FisPrototypeOf
  else if String.eqb key "propertyIsEnumerable" then Some FpropertyIsEnumerable
  else if String.eqb key "toString" then Some FtoString
  else if String.eqb key "valueOf" then Some FvalueOf
  else if String.eqb key "toLocaleString" then Some FtoLocaleString
  else None.

(** What a property of a [tagCounts] object can hold: a number, or the
    string that [+ 1] makes of an inherited function. [FunctionText f ones]
    is the source text of [f] followed by [ones + 1] characters 1, one for
    every time the name was counted. That text starts with the word
    function, so as a number the string is NaN. *)
Inductive tally :=
| Count (n : number)
| FunctionText (f : builtin) (ones : nat).

#[global] Instance tally_eq_dec : EqDecision tally.
Proof. solve_decision. Defined.

(** The own properties in creation order. *)
Definition jsobj := list (string * tally).

Fixpoint obj_get (o : jsobj) (k : string) : option tally :=
  match o with
  | [] => None
  | (k', v) :: o' => if String.eqb k' k then Some v else obj_get o' k
  end.

Fixpoint obj_set (o : jsobj) (k : string) (v : tally) : jsobj :=
  match o with
  | [] => [(k, v)]
  | (k', v') :: o' =>
      if String.eqb k' k then (k, v) :: o' else (k', v') :: obj_set o' k v
  end.

(** [o[k] = (o[k] || 0) + 1] on a plain object [o]. The read goes to the
    own property and, without one, on to [Object.prototype]:
    - a number counts up, 0 and [undefined] giving 1;
    - a string, which is not empty, has the character 1 appended;
    - an inherited function is turned into its text, with 1 appended, and
      stored as an own property;
    - for [__proto__] the read gives the prototype, an object, the sum is
      a string, and the inherited setter ignores a string: nothing is
      stored. *)
Definition count_up (o : jsobj) (k : string) : jsobj :=
  match obj_get o k with
  | Some (Count n) => obj_set o k (Count (Number_inc n))
  | Some (FunctionText f ones) => obj_set o k (FunctionText f (S ones))
  | None =>
      if String.eqb k "__proto__" then o
      else
        match Object_prototype k with
        | Some f => obj_set o k (FunctionText f 0)
        | None => obj_set o k (Count (num 1))
        end
  end.

Definition digit_of (c : Ascii.ascii) : option N :=
  let n := Ascii.N_of_ascii c in
  if bool_decide (48 <= n <= 57)%N then Some (n - 48)%N else None.

Fixpoint digits_go (acc : N) (s : string) : option N :=
  match s with
  | EmptyString => Some acc
  | String c s' =>
      match digit_of c with
      | Some d => digits_go (10 * acc + d)%N s'
      | None => None
      end
  end.

(** A property name is an array index when it is the canonical decimal
    numeral of an integer below 2^32 - 1. *)
Definition array_index (k : string) : option N :=
  match k with
  | EmptyString => None
  | _ =>
      match digits_go 0%N k with
      | Some n =>
          if String.eqb (pretty n) k && bool_decide (n < 4294967295)%N
          then Some n else None
      | None => None
      end
  end.

Definition index_entries (o : jsobj) : list (N * (string * tally)) :=
  omap (fun e => match array_index e.1 with
                 | Some n => Some (n, e)
                 | None => None
                 end) o.

Definition named_entries (o : jsobj) : jsobj :=
  filter (fun e => array_index e.1 = None) o.

(** [Object.entries] lists the array indices first, in ascending numeric
    order, then the other names in creation order. *)
Definition Object_entries (o : jsobj) : list (string * tally) :=
  map snd (Array_sort (fun a b => Z.of_N a.1 - Z.of_N b.1) (index_entries o))
  ++ named_entries o.

(** [b[1] - a[1]] on two entries, as [sort] takes it: the difference of
    two numbers, and +0 when it is NaN. *)
Definition ToNumber (t : tally) : option Z :=
  match t with
  | Count n => Some (Number_val n)
  | FunctionText _ _ => None
  end.

Definition by_count (a b : string * tally) : Z :=
  match ToNumber b.2, ToNumber a.2 with
  | Some y, Some x => y - x
  | _, _ => 0
  end.

Definition is_count (t : tally) : bool :=
  match t with
  | Count _ => true
  | FunctionText _ _ => false
  end.

(** A JavaScript engine. With a comparator that is not consistent the
    order [sort] leaves is up to the engine; it is some permutation. *)
Class Engine := {
  engine_sort : list (string * tally) -> list (string * tally);
  engine_sort_perm : forall l, engine_sort l ≡ₚ l
}.

(** [entries.sort((a, b) => b[1] - a[1])]. Among numbers the comparator
    is consistent and the sort is the stable one. A value that is NaN as
    a number compares equal to everything, which is not consistent as
    soon as two numbers differ: the order is then the engine's. *)
Definition sort_by_count `{Engine} (entries : list (string * tally))
    : list (string * tally) :=
  if forallb (fun e => is_count e.2) entries
  then Array_sort by_count entries
  else engine_sort entries.

(** *** [Map]

    Entries in insertion order; [set] on a present key keeps its place. *)
Definition Map := list (jsval * Z).

Fixpoint Map_get (m : Map) (k : jsval) : option Z :=
  match m with
  | [] => None
  | (k', v) :: m' => if decide (k' = k) then Some v else Map_get m' k
  end.

Fixpoint Map_set (m : Map) (k : jsval) (v : Z) : Map :=
  match m with
  | [] => [(k, v)]
  | (k', v') :: m' =>
      if decide (k' = k) then (k, v) :: m' else (k', v') :: Map_set m' k v
  end.

Definition Map_delete (m : Map) (k : jsval) : Map :=
  filter (fun e => e.1 <> k) m.

Definition Map_entries (m : Map) : list (jsval * Z) := m.

(** [scores.get(tag) || 0] *)
Definition get_or_0 (m : Map) (k : jsval) : Z := default 0 (Map_get m k).

End JS.

Import JS.

(** ** The IndexedDB database [SnippetManagerDB_v2] *)

(** Valid keys among the modelled values: numbers and strings. Any other
    value makes [get] throw a [DataError]. *)
Inductive idbkey :=
| KNum (n : Z)
| KStr (s : string).

#[global] Instance idbkey_eq_dec : EqDecision idbkey.
Proof. solve_decision. Defined.

#[global] Instance idbkey_countable : Countable idbkey.
Proof.
  apply (inj_countable'
           (fun k => match k with KNum n => inl n | KStr s => inr s end)
           (fun x => match x with inl n => KNum n | inr s => KStr s end)).
  intros []; reflexivity.
Defined.

Definition to_key (v : jsval) : option idbkey :=
  match v with
  | JNum n => Some (KNum n)
  | JStr s => Some (KStr s)
  | _ => None
  end.

Definition valid_key (t : jsval) : Prop := is_Some (to_key t).

#[global] Instance valid_key_dec t : Decision (valid_key t).
Proof. unfold valid_key. apply _. Defined.

(** Records of the three object stores the service uses; the key path of
    each store is the first field. *)
Record Tag := {
  name : idbkey;
  created : Z;
  parent : option string;
  color : option string
}.

Record TagStat := {
  pair : string;
  count : number;
  lastSeen : Z
}.

Record DomainStat := {
  domain : string;
  tagCounts : jsobj
}.

Record store := {
  TAGS : gmap idbkey Tag;
  TAG_STATS : gmap string TagStat;
  DOMAIN_STATS : gmap string DomainStat
}.

Definition empty_store : store :=
  {| TAGS := ∅; TAG_STATS := ∅; DOMAIN_STATS := ∅ |}.

(** Every record is stored under the value of its key path. *)
Definition store_wf (st : store) : Prop :=
  (forall k r, TAGS st !! k = Some r -> name r = k) /\
  (forall k r, TAG_STATS st !! k = Some r -> pair r = k) /\
  (forall k r, DOMAIN_STATS st !! k = Some r -> domain r = k).

(** [objectStore.getAll()]: the records in ascending key order. *)
Definition getAll (m : gmap string TagStat) : list TagStat :=
  map snd (merge_sort (fun a b => Is_true (String.leb a.1 b.1)) (map_to_list m)).

Inductive error :=
| DBError      (* [reject('DB Error')] of [Database.get] *)
| DataError.   (* thrown by [get] on a value that is not a valid key *)

Inductive settled (A : Type) :=
| Resolved (a : A)
| Rejected (e : error).
Arguments Resolved {A} a.
Arguments Rejected {A} e.

(** [indexedDB.open] either fails or hands out the database. The store of
    an open database is the state the next transaction starts from: the
    transactions on the stores of the service run one after the other,
    in the order they were created. *)
Inductive database :=
| Unavailable
| Opened (st : store).

Definition Database_get (db : database) : settled store :=
  match db with
  | Unavailable => Rejected DBError
  | Opened st => Resolved st
  end.

(** *** Requests of a readwrite transaction

    The service places [get] requests whose [onsuccess] callbacks place
    [put] requests. Requests run in the order they were placed, so the
    [put]s of the callbacks run after every [get] placed by the
    synchronous part of the call. A callback that calls [Date.now()] is a
    function of the time it reads. *)
Inductive put_request :=
| TagPut (r : Tag)
| StatPut (r : TagStat)
| DomainPut (r : DomainStat).

Inductive request :=
| TagGet (k : idbkey) (onsuccess : Z -> option Tag -> list put_request)
| StatGet (k : string) (onsuccess : Z -> option TagStat -> list put_request)
| DomainGet (k : string) (onsuccess : option DomainStat -> list put_request).

(** The callback of a request, run at the time [now] on the result the
    request read from [st]. *)
Definition fire (st : store) (now : Z) (r : request) : list put_request :=
  match r with
  | TagGet k onsuccess => onsuccess now (TAGS st !! k)
  | StatGet k onsuccess => onsuccess now (TAG_STATS st !! k)
  | DomainGet k onsuccess => onsuccess (DOMAIN_STATS st !! k)
  end.

Definition put (st : store) (p : put_request) : store :=
  match p with
  | TagPut r =>
      {| TAGS := <[name r := r]> (TAGS st);
         TAG_STATS := TAG_STATS st;
         DOMAIN_STATS := DOMAIN_STATS st |}
  | StatPut r =>
      {| TAGS := TAGS st;
         TAG_STATS := <[pair r := r]> (TAG_STATS st);
         DOMAIN_STATS := DOMAIN_STATS st |}
  | DomainPut r =>
      {| TAGS := TAGS st;
         TAG_STATS := TAG_STATS st;
         DOMAIN_STATS := <[domain r := r]> (DOMAIN_STATS st) |}
  end.

(** A clock: the time [Date.now()] gives in the callback of the i-th
    request of a transaction. *)
Definition clock := nat -> Z.

(** The [put]s the callbacks of the placed requests place, in order. *)
Definition fired (now : clock) (st : store) (q : list request)
    : list put_request :=
  concat (imap (fun i r => fire st (now i) r) q).

(** The transaction runs to completion: every placed [get] reads the state
    the transaction started from, then the [put]s are applied in order. *)
Definition tx_complete (now : clock) (st : store) (q : list request) : store :=
  foldl put st (fired now st q).

(** *** Transactions of a connection *)

Inductive mode := Readonly | Readwrite.

(** [db.transaction(storeNames, mode)] and the requests placed on it. *)
Record transaction := {
  storeNames : list string;
  tx_mode : mode;
  requests : list request
}.



(** ** KnowledgeGraphService *)

(** What a call of [learn] leaves behind when it returns: its promise,
    settled, and the transaction it created, if it came that far, with
    the requests it placed on it, none of which has run yet. *)
Record call := {
  promise : settled unit;
  tx : option transaction
}.

Definition placed (c : call) : list request :=
  match tx c with
  | Some t => requests t
  | None => []
  end.

Definition STORES_of_learn : list string := ["tags"; "tag_stats"; "domain_stats"].

Definition _getPairKey (tagA tagB : jsval) : string :=
  Array_join "_" (Array_sort SortCompare [tagA; tagB]).

Definition _incrementStat (key : string) : request :=
  StatGet key (fun now result =>
    let item := default {| pair := key; count := zero; lastSeen := 0 |} result in
    [StatPut {| pair := pair item; count := Number_inc (count item);
                lastSeen := now |}]).

(** Step 1, [tags.forEach(tagName => tagStore.get(tagName) ...)]: the loop
    stops at the first value that is not a valid key, with the requests
    placed so far. *)
Fixpoint register_tags (tags : list jsval) : list request * option error :=
  match tags with
  | [] => ([], None)
  | tagName :: rest =>
      match to_key tagName with
      | None => ([], Some DataError)
      | Some k =>
          let req := TagGet k (fun now result =>
            match result with
            | Some _ => []
            | None => [TagPut {| name := k; created := now;
                                 parent := None; color := None |}]
            end) in
          let '(q, thrown) := register_tags rest in
          (req :: q, thrown)
      end
  end.

(** Step 2, the positions [i < j] in the order of the two loops. *)
Fixpoint tag_pairs (tags : list jsval) : list (jsval * jsval) :=
  match tags with
  | [] => []
  | t :: rest => map (fun u => (t, u)) rest ++ tag_pairs rest
  end.

Definition pair_requests (tags : list jsval) : list request :=
  map (fun p => _incrementStat (_getPairKey p.1 p.2)) (tag_pairs tags).

(** Step 3, [data.tagCounts[t] = (data.tagCounts[t] || 0) + 1]. *)
Definition count_tag (o : jsobj) (t : jsval) : jsobj :=
  count_up o (ToString t).

Definition domain_requests (tags : list jsval) (dom : option string) : list request :=
  match dom with
  | Some d =>
      if truthy dom then
        [DomainGet d (fun result =>
           let data := default {| domain := d; tagCounts := [] |} result in
           [DomainPut {| domain := domain data;
                         tagCounts := foldl count_tag (tagCounts data) tags |}])]
      else []
  | None => []
  end.

Definition learn (db : database) (tags : list jsval) (dom : option string) : call :=
  if bool_decide (length tags = 0%nat) then
    {| promise := Resolved tt; tx := None |}
  else
    match Database_get db with
    | Rejected e => {| promise := Rejected e; tx := None |}
    | Resolved _ =>
        let transaction_of q :=
          Some {| storeNames := STORES_of_learn; tx_mode := Readwrite;
                  requests := q |} in
        match register_tags tags with
        | (q, Some e) => {| promise := Rejected e; tx := transaction_of q |}
        | (q, None) =>
            {| promise := Resolved tt;
               tx := transaction_of
                       (q ++ pair_requests tags ++ domain_requests tags dom)%list |}
        end
    end.

(** The store once the transaction of a [learn] call has completed. *)
Definition learned (st : store) (tags : list jsval) (dom : option string)
    (now : clock) : store :=
  tx_complete now st (placed (learn (Opened st) tags dom)).


(** Part A of [predict]: the three most frequent tags of the domain score
    5 points each. *)
Definition domain_scores `{Engine} (st : store) (dom : option string)
    (scores : Map) : Map :=
  match dom with
  | Some d =>
      if truthy dom then
        match DOMAIN_STATS st !! d with
        | Some result =>
            foldl (fun sc e =>
                     Map_set sc (JStr e.1) (Number_add (get_or_0 sc (JStr e.1)) 5))
                  scores
                  (take 3 (sort_by_count (Object_entries (tagCounts result))))
        | None => scores
        end
      else scores
  | None => scores
  end.

(** Part B: one stored pair, split back into its two tags. *)
Definition association_step (currentTags : list jsval) (scores : Map)
    (stat : TagStat) : Map :=
  let parts := String_split "_"%char (pair stat) in
  let tagA := Array_at parts 0 in
  let tagB := Array_at parts 1 in
  let hasA := Array_includes currentTags tagA in
  let hasB := Array_includes currentTags tagB in
  if hasA && negb hasB
  then Map_set scores tagB (Number_add (get_or_0 scores tagB) (count stat))
  else if negb hasA && hasB
  then Map_set scores tagA (Number_add (get_or_0 scores tagA) (count stat))
  else scores.

Definition association_scores (st : store) (currentTags : list jsval)
    (scores : Map) : Map :=
  if bool_decide (0 < length currentTags)%nat then
    foldl (association_step currentTags) scores (getAll (TAG_STATS st))
  else scores.

Definition predict `{Engine} (db : database) (currentTags : list jsval)
    (dom : option string) : settled (list jsval) :=
  match Database_get db with
  | Rejected e => Rejected e
  | Resolved st =>
      let scores := domain_scores st dom [] in
      let scores := association_scores st currentTags scores in
      let scores := foldl Map_delete scores currentTags in
      Resolved (take 5 (map fst (Array_sort (fun a b => b.2 - a.2)
                                            (Map_entries scores))))
  end.

(** String tags, as [parseTags] hands them to the service. *)
Definition tagsOf (l : list string) : list jsval := map JStr l.

(** A clock that ticks between any two callbacks, and one that stands
    still. *)
Definition ticking : clock := fun i => Z.of_nat i.

Definition frozen (t : Z) : clock := fun _ => t.


(** What [k] times [o[s] = (o[s] || 0) + 1] makes of the property [s],
    whatever is done to other properties in between. *)
Definition counted_up (k : nat) (s : string) (v : option tally) : option tally :=
  match k with
  | O => v
  | S k' =>
      match v with
      | Some (Count n) => Some (Count (num (n + Z.of_nat k)))
      | Some (FunctionText f ones) => Some (FunctionText f (ones + k))
      | None =>
          if String.eqb s "__proto__" then None
          else
            match Object_prototype s with
            | Some f => Some (FunctionText f k')
            | None => Some (Count (num (Z.of_nat k)))
            end
      end
  end.

(** A history of [learn] calls, each with its own tags, domain and clock,
    every transaction completing before the next call. *)
Definition learn_all (st : store)
    (calls : list (list jsval * option string * clock)) : store :=
  foldl (fun s c => learned s c.1.1 c.1.2 c.2) st calls.

(** A tally that is a number is at least 1. *)
Definition tally_positive (t : tally) : Prop :=
  match t with
  | Count n => 1 <= n
  | FunctionText _ _ => True
  end.

(** The counters the service keeps are at least 1. *)
Definition counts_positive (st : store) : Prop :=
  (forall k r, TAG_STATS st !! k = Some r -> 1 <= count r) /\
  (forall d r, DOMAIN_STATS st !! d = Some r ->
               Forall (fun e => tally_positive e.2) (tagCounts r)).

(** The keys of the pair counters a call touches. *)
Definition pair_keys (tags : list jsval) : list string :=
  map (fun p => _getPairKey p.1 p.2) (tag_pairs tags).

(** The position of the last occurrence of a key in a list. *)
Fixpoint last_position `{EqDecision K} (k : K) (l : list K) : option nat :=
  match l with
  | [] => None
  | k' :: l' =>
      match last_position k l' with
      | Some i => Some (S i)
      | None => if decide (k' = k) then Some 0%nat else None
      end
  end.

(** Each store only sees the puts addressed to it. *)
Definition tag_puts (ps : list put_request) : list Tag :=
  omap (fun p => match p with TagPut r => Some r | _ => None end) ps.

Definition stat_puts (ps : list put_request) : list TagStat :=
  omap (fun p => match p with StatPut r => Some r | _ => None end) ps.

Definition domain_puts (ps : list put_request) : list DomainStat :=
  omap (fun p => match p with DomainPut r => Some r | _ => None end) ps.

(** The record [_incrementStat] puts for a key when its callback reads
    the time [now]. *)
Definition incremented (st : store) (now : Z) (key : string) : TagStat :=
  let item := default {| pair := key; count := zero; lastSeen := 0 |}
                      (TAG_STATS st !! key) in
  {| pair := pair item; count := Number_inc (count item); lastSeen := now |}.

(** The count a pair key has in a store, 0 without a record. *)
Definition pair_count (st : store) (key : string) : number :=
  default zero (count <$> TAG_STATS st !! key).

(** The keys of the tags [learn] reaches in step 1: those in front of the
    first value that is not a valid key. *)
Fixpoint reached_keys (tags : list jsval) : list idbkey :=
  match tags with
  | [] => []
  | t :: rest =>
      match to_key t with
      | Some k => k :: reached_keys rest
      | None => []
      end
  end.

(** The record step 1 puts for a tag that is not in the store yet, when
    its callback reads the time [now]. *)
Definition new_tag (now : Z) (k : idbkey) : Tag :=
  {| name := k; created := now; parent := None; color := None |}.

(** How often a property name occurs among the tags of a call. *)
Definition occurrences (s : string) (tags : list jsval) : nat :=
  length (filter (fun t => ToString t = s) tags).

(** A name that a plain object does not inherit. *)
Definition ordinary (s : string) : Prop :=
  Object_prototype s = None /\ s <> "__proto__".

(** [tagCounts[s] || 0] for a property that is a number or absent. *)
Definition tag_count (o : jsobj) (s : string) : Z :=
  match obj_get o s with
  | Some (Count n) => n
  | _ => 0
  end.

(** The property is absent or a number. *)
Definition numeric_at (o : jsobj) (s : string) : Prop :=
  match obj_get o s with
  | Some (FunctionText _ _) => False
  | _ => True
  end.



(** The profile a domain has in a store, empty without a record. *)
Definition profile (st : store) (d : string) : jsobj :=
  default [] (tagCounts <$> DOMAIN_STATS st !! d).

(** The profile step 3 puts for a domain. *)
Definition counted (st : store) (tags : list jsval) (d : string) : DomainStat :=
  let data := default {| domain := d; tagCounts := [] |} (DOMAIN_STATS st !! d) in
  {| domain := domain data; tagCounts := foldl count_tag (tagCounts data) tags |}.

(** The score map [predict] ranks: both signals added up, the current
    tags deleted. *)
Definition final_scores `{Engine} (st : store) (currentTags : list jsval)
    (dom : option string) : Map :=
  foldl Map_delete
        (association_scores st currentTags (domain_scores st dom []))
        currentTags.


(** The two ways a tag can enter the score map of [predict]: as a tag
    name of the domain's profile, or as one side of a stored pair whose
    other side is among the current tags. *)
Definition from_domain (st : store) (dom : option string) (x : jsval) : Prop :=
  exists d r s n,
    dom = Some d /\ DOMAIN_STATS st !! d = Some r /\
    (s, n) ∈ tagCounts r /\ x = JStr s.

Definition from_pair (st : store) (currentTags : list jsval) (x : jsval) : Prop :=
  exists k stat,
    TAG_STATS st !! k = Some stat /\
    let parts := String_split "_"%char (pair stat) in
    (x = Array_at parts 1 /\ Array_at parts 0 ∈ currentTags) \/
    (x = Array_at parts 0 /\ Array_at parts 1 ∈ currentTags).

(** The association signal in the words of its description: a stored
    pair awards its count to [x] when [x] is one of its two tags, as read
    back from the key, and of the two only the other one is among the
    current tags. *)
Definition awards (currentTags : list jsval) (x : jsval) (stat : TagStat) : bool :=
  let parts := String_split "_"%char (pair stat) in
  let tagA := Array_at parts 0 in
  let tagB := Array_at parts 1 in
  (bool_decide (x = tagB) && Array_includes currentTags tagA
     && negb (Array_includes currentTags tagB))
  || (bool_decide (x = tagA) && Array_includes currentTags tagB
        && negb (Array_includes currentTags tagA)).





(** The records the callbacks of a run of requests put, one request per
    key: the callback of the i-th request reads the time [f i] is given,
    and puts nothing for a key that [P] rules out. *)
Fixpoint indexed_puts {K V} (P : K -> bool) (f : nat -> K -> V)
    (keys : list K) : list V :=
  match keys with
  | [] => []
  | k :: keys' =>
      (if P k then [f 0%nat k] else [])
      ++ indexed_puts P (fun j => f (S j)) keys'
  end.

(** ** The editor's text helpers

    Texts are sequences of code units below 256. [\w] is
    [[A-Za-z0-9_]]; [\s] holds the six ASCII white-space characters and
    the no-break space. *)

Definition is_word (c : ascii) : bool :=
  let n := N_of_ascii c in
  ((48 <=? n) && (n <=? 57) || (65 <=? n) && (n <=? 90)
   || (97 <=? n) && (n <=? 122) || (n =? 95))%N.

(** [[\w-]] *)
Definition is_tag_char (c : ascii) : bool := is_word c || Ascii.eqb c "-".

Definition is_space (c : ascii) : bool :=
  let n := N_of_ascii c in
  ((9 <=? n) && (n <=? 13) || (n =? 32) || (n =? 160))%N.

(** [[\w-]*] at the head of a string, as long as it goes. *)
Fixpoint word_run (s : string) : string :=
  match s with
  | String c s' => if is_tag_char c then String c (word_run s') else EmptyString
  | EmptyString => EmptyString
  end.

(** [#[\w-]+] at the head of a string: the name behind the hash. *)
Definition hash_tag (s : string) : option string :=
  match s with
  | String c s' =>
      if Ascii.eqb c "#" then
        match word_run s' with
        | EmptyString => None
        | name => Some name
        end
      else None
  | EmptyString => None
  end.

(** [RE.TAG], [(?:^|\s)(#[\w-]+)], tried at one position: the length of
    the match and group 1 without its hash. [^] is tried first and holds at
    the start of the text only. *)
Definition tag_here (at_start : bool) (s : string) : option (nat * string) :=
  match (if at_start then hash_tag s else None) with
  | Some name => Some (S (String.length name), name)
  | None =>
      match s with
      | String c s' =>
          if is_space c then
            match hash_tag s' with
            | Some name => Some (S (S (String.length name)), name)
            | None => None
            end
          else None
      | EmptyString => None
      end
  end.

(** The loop [while ((match = regex.exec(text)) !== null)] over the
    positions of the text: [skip] characters still belong to the last
    match ([lastIndex] lies ahead); otherwise the pattern is tried here,
    and the search moves on by one position when it fails. *)
Fixpoint scan_tags (at_start : bool) (skip : nat) (s : string) : list string :=
  match s with
  | EmptyString => []
  | String c s' =>
      match skip with
      | S k => scan_tags false k s'
      | O =>
          match tag_here at_start s with
          | Some (len, name) => name :: scan_tags false (len - 1) s'
          | None => scan_tags false 0 s'
          end
      end
  end.

Definition parseTags (text : string) : list string := scan_tags true 0 text.

(** A string [[\w-]+] matches in full. *)
Fixpoint all_tag_chars (s : string) : bool :=
  match s with
  | EmptyString => true
  | String c s' => is_tag_char c && all_tag_chars s'
  end.

Definition tag_name (s : string) : Prop :=
  s <> EmptyString /\ all_tag_chars s = true.

(** [tags.map(t => '#' + t).join(' ')], the line [createCard] shows for a
    snippet that has tags only. *)
Definition tags_line (tags : list jsval) : string :=
  Array_join " " (map (fun t => JStr ("#" +:+ ToString t)) tags).

(** [val.endsWith(' ')] *)
Fixpoint ends_with_space (val : string) : bool :=
  match val with
  | EmptyString => false
  | String c EmptyString => Ascii.eqb c " "
  | String _ val' => ends_with_space val'
  end.

(** The value [acceptSuggestion(tag)] gives the input that held [val]. *)
Definition acceptSuggestion (val : string) (tag : jsval) : string :=
  let needsSpace := (0 <? String.length val)%nat && negb (ends_with_space val) in
  val +:+ (if needsSpace then " " else EmptyString) +:+ "#" +:+ ToString tag +:+ " ".

(** What follows the first tag on a [tags_line]. *)
Fixpoint more_tags (names : list string) : string :=
  match names with
  | [] => EmptyString
  | name :: rest => String " " (String "#" (name +:+ more_tags rest))
  end.

(** [escapeHtml]: ampersand, less-than, greater-than, double quote (the
    character 34) and single quote become entities. *)
Definition escape_char (c : ascii) : string :=
  if Ascii.eqb c "&" then "&amp;"
  else if Ascii.eqb c "<" then "&lt;"
  else if Ascii.eqb c ">" then "&gt;"
  else if Ascii.eqb c "034" then "&quot;"
  else if Ascii.eqb c "'" then "&#039;"
  else String c EmptyString.

(** [text.replace] over every one of these characters. *)
Fixpoint escape_all (text : string) : string :=
  match text with
  | EmptyString => EmptyString
  | String c text' => escape_char c +:+ escape_all text'
  end.

(** [null], [undefined] and the empty string give the empty string. *)
Definition escapeHtml (text : option string) : string :=
  match text with
  | None => EmptyString
  | Some s => if String.eqb s EmptyString then EmptyString else escape_all s
  end.

(** The characters [escapeHtml] replaces. *)
Definition is_special (c : ascii) : bool :=
  Ascii.eqb c "&" || Ascii.eqb c "<" || Ascii.eqb c ">"
  || Ascii.eqb c "034" || Ascii.eqb c "'".

(** The first [k] characters of a text are left alone by [escapeHtml]. *)
Fixpoint plain_prefix (k : nat) (s : string) : Prop :=
  match k, s with
  | S k', String c s' => is_special c = false /\ plain_prefix k' s'
  | _, _ => True
  end.

(** ** The colour of a link card *)

(** [ToInt32]: the integer taken modulo 2^32 into [-2^31, 2^31). *)
Definition to_int32 (z : Z) : Z := (z + 2 ^ 31) mod 2 ^ 32 - 2 ^ 31.

(** [hash << 5] *)
Definition shift_left_5 (hash : Z) : Z := to_int32 (hash * 32).

(** [hash = domain.charCodeAt(i) + ((hash << 5) - hash)] over the
    characters of the domain. Only the shift wraps to 32 bits; the sum and
    the difference are those of numbers. *)
Fixpoint hash_from (hash : Z) (domain : string) : Z :=
  match domain with
  | EmptyString => hash
  | String c domain' =>
      hash_from (Z.of_N (N_of_ascii c) + (shift_left_5 hash - hash)) domain'
  end.

(** [Math.abs(hash % 360)]; [%] takes the sign of the dividend. *)
Definition hue (domain : string) : Z := Z.abs (Z.rem (hash_from 0 domain) 360).

Definition getGradientForDomain (domain : option string) : string :=
  match domain with
  | Some d =>
      if String.eqb d EmptyString then "linear-gradient(135deg, #eee, #ddd)"
      else
        let h := hue d in
        "linear-gradient(135deg, hsl(" +:+ pretty h +:+ ", 65%, 55%), hsl("
          +:+ pretty (h + 40) +:+ ", 65%, 35%))"
  | None => "linear-gradient(135deg, #eee, #ddd)"
  end.

(** ** URLs in a text *)

(** [[^\s]*] at the head of a string, as long as it goes. *)
Fixpoint non_space_run (s : string) : string :=
  match s with
  | String c s' => if is_space c then EmptyString else String c (non_space_run s')
  | EmptyString => EmptyString
  end.

(** What is left of [s] behind the prefix [p]. *)
Fixpoint strip_prefix (p s : string) : option string :=
  match p, s with
  | EmptyString, _ => Some s
  | String a p', String b s' => if Ascii.eqb a b then strip_prefix p' s' else None
  | String _ _, EmptyString => None
  end.

(** [[^\s]+] behind the scheme: the match, scheme included. *)
Definition url_tail (scheme rest : string) : option string :=
  match non_space_run rest with
  | EmptyString => None
  | run => Some (scheme +:+ run)
  end.

(** [https?:\/\/[^\s]+] tried at the head of a string: the text it
    matches. An [s] behind [http] is taken when it is there. *)
Definition url_here (s : string) : option string :=
  match strip_prefix "http" s with
  | Some (String c r as r0) =>
      if Ascii.eqb c "s" then
        match strip_prefix "://" r with
        | Some rest => url_tail "https://" rest
        | None => None
        end
      else
        match strip_prefix "://" r0 with
        | Some rest => url_tail "http://" rest
        | None => None
        end
  | _ => None
  end.

(** [text.match(/(https?:\/\/[^\s]+)/)]: the first URL of a text. *)
Fixpoint first_url (s : string) : option string :=
  match url_here s with
  | Some m => Some m
  | None =>
      match s with
      | String _ s' => first_url s'
      | EmptyString => None
      end
  end.

(** The search of the global [RE.URL] from [lastIndex]: the end of the
    first match that starts at or behind it. [pos] is the index of the
    head of [s] in the text. *)
Fixpoint url_search (pos from : nat) (s : string) : option nat :=
  match from with
  | S from' =>
      match s with
      | String _ s' => url_search (S pos) from' s'
      | EmptyString => None
      end
  | O =>
      match url_here s with
      | Some m => Some (pos + String.length m)%nat
      | None =>
          match s with
          | String _ s' => url_search (S pos) 0 s'
          | EmptyString => None
          end
      end
  end.

(** [RE.URL.test(text)]: the answer and the [lastIndex] it leaves, the end
    of the match or 0 when there is none. *)
Definition url_test (lastIndex : nat) (text : string) : bool * nat :=
  match url_search 0 lastIndex text with
  | Some e => (true, e)
  | None => (false, 0%nat)
  end.

(** ** Snippets and their repository *)

Module Meta.
Record t := {
  url : string;
  title : option string;
  description : option string;
  image : option string;
  domain : option string
}.
End Meta.

Module Snippet.
Record t := {
  id : option Z;
  text : string;
  timestamp : Z;
  tags : list jsval;
  meta : option Meta.t
}.

(** [{ ...item, id: key }] *)
Definition with_id (item : t) (key : Z) : t :=
  {| id := Some key; text := text item; timestamp := timestamp item;
     tags := tags item; meta := meta item |}.
End Snippet.

(** The object store [snippets]: key path [id], [autoIncrement]. The key
    generator starts at 1 and stays ahead of every key it has seen. *)
Record snippets := {
  rows : gmap Z Snippet.t;
  generator : Z
}.

Definition no_snippets : snippets := {| rows := ∅; generator := 1 |}.

(** [objectStore.put(item)]: the store and the key the request returns. *)
Definition snippets_put (s : snippets) (item : Snippet.t) : snippets * Z :=
  match Snippet.id item with
  | None =>
      let key := generator s in
      ({| rows := <[key := Snippet.with_id item key]> (rows s);
          generator := key + 1 |}, key)
  | Some key =>
      ({| rows := <[key := item]> (rows s);
          generator := if bool_decide (generator s <= key) then key + 1
                       else generator s |}, key)
  end.

(** The database as the repository sees it, opened. *)
Record app_db := {
  SNIPPETS : snippets;
  brain : store
}.

(** Every snippet sits under its id, and the generator is ahead of all. *)
Definition snippets_wf (s : snippets) : Prop :=
  forall k r, rows s !! k = Some r -> Snippet.id r = Some k /\ k < generator s.

Module SnippetRepository.

Section WithUrlParser.

(** [new URL(u).hostname], or nothing when the constructor throws. *)
Variable hostname : string -> option string.

(** The domain [save] hands to the brain: the host of the first URL of the
    text, [null] without a URL or when it does not parse. *)
Definition domain_of (text : string) : option string :=
  match first_url text with
  | Some u => hostname u
  | None => None
  end.

(** [save(item)]: the snippet it resolves with, and the database once the
    put and the transaction of the [learn] call it starts have completed,
    the callbacks of that transaction reading the clock [now]. Whether
    [learn] resolves or rejects makes no difference to [save], which only
    logs a rejection. *)
Definition save (d : app_db) (item : Snippet.t) (now : clock) : Snippet.t * app_db :=
  let '(stored, key) := snippets_put (SNIPPETS d) item in
  let savedItem := Snippet.with_id item key in
  let dom := domain_of (Snippet.text item) in
  (savedItem,
   {| SNIPPETS := stored;
      brain := learned (brain d) (Snippet.tags item) dom now |}).

End WithUrlParser.

(** [delete(id)] *)
Definition delete (d : app_db) (id : Z) : app_db :=
  {| SNIPPETS := {| rows := base.delete id (rows (SNIPPETS d));
                    generator := generator (SNIPPETS d) |};
     brain := brain d |}.

(** [getAll()]: the snippets in ascending order of their ids. *)
Definition getAll (d : app_db) : list Snippet.t :=
  map snd (merge_sort (fun a b : Z * Snippet.t => Is_true (Z.leb a.1 b.1))
                      (map_to_list (rows (SNIPPETS d)))).

End SnippetRepository.

(** ** The filter of the grid *)

Module AppState.
Record t := {
  search : string;
  filter : string
}.
End AppState.

(** [toLowerCase] on code units below 256: the letters A to Z and the
    capital letters of Latin-1 move up by 32. *)
Definition to_lower (c : ascii) : ascii :=
  let n := N_of_ascii c in
  if ((65 <=? n) && (n <=? 90)
      || (192 <=? n) && (n <=? 222) && negb (n =? 215))%N
  then ascii_of_N (n + 32) else c.

Fixpoint toLowerCase (s : string) : string :=
  match s with
  | EmptyString => EmptyString
  | String c s' => String (to_lower c) (toLowerCase s')
  end.

(** [s.includes(sub)] *)
Fixpoint String_includes (s sub : string) : bool :=
  match strip_prefix sub s with
  | Some _ => true
  | None =>
      match s with
      | String _ s' => String_includes s' sub
      | EmptyString => false
      end
  end.

(** [filterLogic(snippet)] with the [lastIndex] of [RE.URL] before the
    call: the answer and the [lastIndex] after it. [test] is not reached
    when the text does not hold the search term. *)
Definition filterLogic (st : AppState.t) (lastIndex : nat)
    (snippet : Snippet.t) : bool * nat :=
  let text := Snippet.text snippet in
  let textMatch :=
    String_includes (toLowerCase text) (toLowerCase (AppState.search st)) in
  if negb textMatch then (false, lastIndex)
  else
    let '(hasLink, lastIndex') := url_test lastIndex text in
    if String.eqb (AppState.filter st) "links" && negb hasLink
    then (false, lastIndex')
    else if String.eqb (AppState.filter st) "text" && hasLink
    then (false, lastIndex')
    else
      match strip_prefix "tag:" (AppState.filter st) with
      | Some tag =>
          if negb (Array_includes (Snippet.tags snippet) (JStr tag))
          then (false, lastIndex') else (true, lastIndex')
      | None => (true, lastIndex')
      end.

(** [state.snippets.filter(filterLogic)]: [RE.URL] is one object, so its
    [lastIndex] goes from one snippet to the next. *)
Fixpoint filter_snippets (st : AppState.t) (lastIndex : nat)
    (l : list Snippet.t) : list Snippet.t * nat :=
  match l with
  | [] => ([], lastIndex)
  | snippet :: rest =>
      let '(keep, lastIndex') := filterLogic st lastIndex snippet in
      let '(kept, final) := filter_snippets st lastIndex' rest in
      (if keep then snippet :: kept else kept, final)
  end.

(** A text that is one URL and nothing else. *)
Definition link_only (text : string) : Prop :=
  exists scheme run,
    (scheme = "http://" \/ scheme = "https://") /\
    run <> EmptyString /\ non_space_run run = run /\
    text = scheme +:+ run.

(** Every other snippet of a list, from the first one on ([true]) or from
    the second one on. *)
Fixpoint every_other (first : bool) (l : list Snippet.t) : list Snippet.t :=
  match l with
  | [] => []
  | s :: rest =>
      if first then s :: every_other false rest else every_other true rest
  end.

(** In a list taken two by two, the text of the second snippet of each
    pair is no longer than the text of the first. *)
Fixpoint second_no_longer (l : list Snippet.t) : Prop :=
  match l with
  | s1 :: s2 :: rest =>
      (String.length (Snippet.text s2) <= String.length (Snippet.text s1))%nat
      /\ second_no_longer rest
  | _ => True
  end.

(** The end of the text of the last snippet of a list of odd length, 0
    for a list of even length. *)
Fixpoint odd_one_out (l : list Snippet.t) : nat :=
  match l with
  | s1 :: _ :: rest => odd_one_out rest
  | [s] => String.length (Snippet.text s)
  | [] => 0
  end.

(** ** Loading the grid and the filter dialog *)

(** [Set.prototype.add]: a [Set] keeps the order of first insertion. *)
Definition Set_add (s : list jsval) (v : jsval) : list jsval :=
  if bool_decide (v ∈ s) then s else s ++ [v].

(** [loadSnippets()]: [state.snippets] and [state.availableTags] as it
    leaves them, for snippets that all carry a [tags] array. *)
Definition loadSnippets (d : app_db) : list Snippet.t * list jsval :=
  let snippets :=
    Array_sort (fun a b => Snippet.timestamp b - Snippet.timestamp a)
               (SnippetRepository.getAll d) in
  (snippets,
   foldl (fun available s => foldl Set_add available (Snippet.tags s))
         [] snippets).

(** The [sortedTags] of [openFilter()], one radio button each. *)
Definition openFilter (availableTags : list jsval) : list jsval :=
  Array_sort SortCompare availableTags.

(** The value of the radio button of a tag, which [applyFilter] puts in
    [state.filter]. *)
Definition tag_filter (tag : string) : string := "tag:" +:+ tag.


(** ** Facts about numbers *)

Section Numbers.

Lemma num_val z : Number_val (num z) = clamp z.
Proof.
  unfold num, checked. destruct (decide _) as [p|np]; [reflexivity|].
  exfalso. apply np. apply Is_true_true. unfold exactb, clamp.
  apply andb_true_iff. split; apply Z.leb_le; lia.
Qed.

Lemma number_eq (a b : number) : Number_val a = Number_val b -> a = b.
Proof. destruct a, b. simpl. intros ->. f_equal. apply proof_irrel. Qed.

Lemma number_range (n : number) : - 2 ^ 53 <= n <= 2 ^ 53.
Proof.
  destruct n as [z p]. simpl. apply Is_true_true in p.
  unfold exactb in p. apply andb_true_iff in p as [?%Z.leb_le ?%Z.leb_le]. lia.
Qed.

Lemma num_exact z : - 2 ^ 53 <= z <= 2 ^ 53 -> Number_val (num z) = z.
Proof. intros. rewrite num_val. unfold clamp. lia. Qed.

Lemma num_Number_val (n : number) : num n = n.
Proof. apply number_eq, num_exact, number_range. Qed.

(** Below 2^53 the increment is exact; at 2^53 the count stays. *)
Lemma Number_inc_exact (n : number) :
  n < 2 ^ 53 -> Number_val (Number_inc n) = n + 1.
Proof.
  intros. unfold Number_inc. apply num_exact.
  pose proof (number_range n). lia.
Qed.

Lemma Number_inc_val (n : number) :
  Number_val (Number_inc n) = Z.min (n + 1) (2 ^ 53).
Proof.
  unfold Number_inc. rewrite num_val. unfold clamp.
  pose proof (number_range n). lia.
Qed.



End Numbers.

(** ** Facts about the JavaScript containers *)

Section JsContainers.

#[global] Instance JStr_inj : Inj (=) (=) JStr.
Proof. by intros ?? [= ->]. Qed.

Lemma sort_insert_perm {A} (cmp : A -> A -> Z) x l :
  sort_insert cmp x l ≡ₚ x :: l.
Proof.
  induction l as [|y l IH]; simpl; [done|].
  case_bool_decide; [done|].
  rewrite IH. apply Permutation_swap.
Qed.

Lemma Array_sort_perm {A} (cmp : A -> A -> Z) l :
  Array_sort cmp l ≡ₚ l.
Proof.
  unfold Array_sort.
  induction l as [|x l IH]; simpl; [done|].
  by rewrite sort_insert_perm, IH.
Qed.

Lemma Array_sort_length {A} (cmp : A -> A -> Z) l :
  length (Array_sort cmp l) = length l.
Proof. apply Permutation_length, Array_sort_perm. Qed.

(** An engine, for the scenarios: one that sorts with the insertion sort
    whatever the comparator. *)
#[global] Instance insertion_engine : Engine :=
  {| engine_sort := Array_sort by_count;
     engine_sort_perm := Array_sort_perm by_count |}.

Lemma sort_by_count_perm `{Engine} l : sort_by_count l ≡ₚ l.
Proof.
  unfold sort_by_count.
  destruct (forallb _ l); [apply Array_sort_perm|apply engine_sort_perm].
Qed.

(** [set] adds at most the key it is given. *)
Lemma Map_set_keys m k v x :
  x ∈ (Map_set m k v).*1 -> x = k \/ x ∈ m.*1.
Proof.
  induction m as [|[k' v'] m IH]; simpl.
  - intros ->%list_elem_of_singleton. by left.
  - case_decide as Hk; simpl.
    + subst k'. rewrite !elem_of_cons. tauto.
    + rewrite !elem_of_cons. intros [->|Hx]; [tauto|].
      destruct (IH Hx); tauto.
Qed.

(** A [Map] never holds a key twice. *)
Lemma Map_set_NoDup m k v :
  NoDup m.*1 -> NoDup (Map_set m k v).*1.
Proof.
  induction m as [|[k' v'] m IH]; simpl; intros Hnd.
  - apply NoDup_singleton.
  - apply NoDup_cons in Hnd as [Hk' Hnd].
    case_decide as Hk; simpl.
    + subst k'. by apply NoDup_cons.
    + apply NoDup_cons. split; [|by apply IH].
      intros [->|Hin]%Map_set_keys; [done|]. by apply Hk'.
Qed.

Lemma Map_delete_keys m k x :
  x ∈ (Map_delete m k).*1 <-> x ∈ m.*1 /\ x <> k.
Proof.
  unfold Map_delete. rewrite !list_elem_of_fmap. split.
  - intros ([k' v'] & -> & [Hne Hin]%list_elem_of_filter). simpl in *.
    split; [|done]. by exists (k', v').
  - intros [([k' v'] & -> & Hin) Hne]. exists (k', v').
    split; [done|]. by apply list_elem_of_filter.
Qed.

Lemma Map_delete_NoDup m k :
  NoDup m.*1 -> NoDup (Map_delete m k).*1.
Proof.
  intros Hnd. eapply sublist_NoDup; [exact Hnd|].
  apply fmap_sublist, sublist_filter.
Qed.

(** [currentTags.forEach(t => scores.delete(t))] *)
Lemma delete_all_keys (l : list jsval) (m : Map) x :
  x ∈ (foldl Map_delete m l).*1 <-> x ∈ m.*1 /\ x ∉ l.
Proof.
  revert m. induction l as [|t l IH]; intros m; simpl.
  - rewrite elem_of_nil. tauto.
  - rewrite IH, Map_delete_keys, not_elem_of_cons. tauto.
Qed.

Lemma delete_all_NoDup (l : list jsval) (m : Map) :
  NoDup m.*1 -> NoDup (foldl Map_delete m l).*1.
Proof.
  revert m. induction l as [|t l IH]; intros m Hnd; simpl; [done|].
  by apply IH, Map_delete_NoDup.
Qed.

End JsContainers.

(** ** The scenarios of the test suite *)

Example pair_key_sorted :
  _getPairKey (JStr "tomaat") (JStr "pasta") = "pasta_tomaat".
Proof. reflexivity. Qed.

Example learn_pasta_tomaat (now : clock) :
  TAG_STATS (learned empty_store (tagsOf ["pasta"; "tomaat"]) (Some "smulweb.nl") now)
    !! "pasta_tomaat"
  = Some {| pair := "pasta_tomaat"; count := num 1; lastSeen := now 2%nat |}.
Proof. vm_compute. reflexivity. Qed.

Example learn_domain_counts (t1 t2 : clock) :
  let st1 := learned empty_store (tagsOf ["dessert"; "chocolade"]) (Some "24kitchen.nl") t1 in
  let st2 := learned st1 (tagsOf ["dessert"; "chocolade"]) (Some "24kitchen.nl") t2 in
  tagCounts <$> DOMAIN_STATS st1 !! "24kitchen.nl"
    = Some [("dessert", Count (num 1)); ("chocolade", Count (num 1))] /\
  tagCounts <$> DOMAIN_STATS st2 !! "24kitchen.nl"
    = Some [("dessert", Count (num 2)); ("chocolade", Count (num 2))].
Proof. split; vm_compute; reflexivity. Qed.

Example learn_single_tag (now : clock) :
  let st := learned empty_store (tagsOf ["eenzaam"]) None now in
  getAll (TAG_STATS st) = [] /\
  TAGS st !! KStr "eenzaam"
    = Some {| name := KStr "eenzaam"; created := now 0%nat;
              parent := None; color := None |}.
Proof. split; vm_compute; reflexivity. Qed.

Example predict_domain_bonus `{Engine} (t1 t2 : clock) :
  let st1 := learned empty_store (tagsOf ["boodschappen"; "bonus"; "recept"]) (Some "ah.nl") t1 in
  let st2 := learned st1 (tagsOf ["boodschappen"; "bonus"]) (Some "ah.nl") t2 in
  predict (Opened st2) [] (Some "ah.nl")
  = Resolved (tagsOf ["boodschappen"; "bonus"; "recept"]).
Proof. vm_compute. reflexivity. Qed.

(** Within one call the reads all come before the writes: a pair met
    twice in the same input is counted once, and carries the time its
    last callback read. *)
Example learn_same_pair_twice (now : clock) :
  getAll (TAG_STATS (learned empty_store (tagsOf ["A"; "B"; "A"]) None now))
  = [ {| pair := "A_A"; count := num 1; lastSeen := now 4%nat |};
      {| pair := "A_B"; count := num 1; lastSeen := now 5%nat |} ].
Proof. vm_compute. reflexivity. Qed.

(** A tag that names a function of [Object.prototype] is not counted in
    the profile of a domain: the profile holds a text for it. The tag
    [__proto__] leaves no entry at all. *)
Example learn_inherited_names (now : clock) :
  profile (learned empty_store
             (tagsOf ["recept"; "constructor"; "__proto__"; "constructor"])
             (Some "ah.nl") now) "ah.nl"
  = [("recept", Count (num 1)); ("constructor", FunctionText Fconstructor 1)].
Proof. vm_compute. reflexivity. Qed.

(** ** The score map of [predict] *)

Section Scores.

Context `{Engine}.

Lemma domain_scores_NoDup st dom (scores : Map) :
  NoDup scores.*1 -> NoDup (domain_scores st dom scores).*1.
Proof.
  intros Hnd. unfold domain_scores.
  destruct dom as [d|]; [|done].
  destruct (truthy (Some d)); [|done].
  destruct (DOMAIN_STATS st !! d) as [result|]; [|done].
  generalize (take 3 (sort_by_count (Object_entries (tagCounts result)))).
  intros l. revert scores Hnd.
  induction l as [|e l IH]; intros scores Hnd; simpl; [done|].
  by apply IH, Map_set_NoDup.
Qed.

Lemma association_step_NoDup ct (scores : Map) stat :
  NoDup scores.*1 -> NoDup (association_step ct scores stat).*1.
Proof.
  intros Hnd. unfold association_step.
  repeat case_match; try done; by apply Map_set_NoDup.
Qed.

Lemma association_scores_NoDup st ct (scores : Map) :
  NoDup scores.*1 -> NoDup (association_scores st ct scores).*1.
Proof.
  intros Hnd. unfold association_scores.
  case_bool_decide; [|done].
  generalize (getAll (TAG_STATS st)). intros l. revert scores Hnd.
  induction l as [|s l IH]; intros scores Hnd; simpl; [done|].
  by apply IH, association_step_NoDup.
Qed.

(** The ranking only reorders and truncates the entries of the map. *)
Lemma ranking_sublist (scores : Map) :
  exists l, l ≡ₚ scores.*1 /\
    take 5 (map fst (Array_sort (fun a b : jsval * Z => b.2 - a.2)
                                (Map_entries scores))) `sublist_of` l.
Proof.
  eexists. split; [|apply sublist_take].
  unfold Map_entries.
  change (map fst ?l) with (l.*1).
  by rewrite Array_sort_perm.
Qed.

(** What [predict] resolves with, once the database is open. *)
Lemma predict_opened st ct dom :
  predict (Opened st) ct dom =
  Resolved (take 5 (map fst (Array_sort (fun a b : jsval * Z => b.2 - a.2)
    (Map_entries (foldl Map_delete
       (association_scores st ct (domain_scores st dom [])) ct))))).
Proof. reflexivity. Qed.

Lemma final_scores_NoDup st ct dom :
  NoDup (foldl Map_delete (association_scores st ct (domain_scores st dom [])) ct).*1.
Proof.
  apply delete_all_NoDup, association_scores_NoDup, domain_scores_NoDup.
  apply NoDup_nil_2.
Qed.

End Scores.

(** ** Properties of [predict] *)

(** C7. For every store state, every sequence of current tags and every
    domain, [predict] returns a sequence of at most 5 entries. *)
Theorem predict_at_most_5 `{Engine} (st : store) (currentTags : list jsval)
    (dom : option string) :
  exists l, predict (Opened st) currentTags dom = Resolved l /\
            (length l <= 5)%nat.
Proof.
  eexists. split; [apply predict_opened|].
  rewrite length_take. lia.
Qed.

(** C10. For every store state, every sequence of current tags and every
    domain, no tag name occurs twice in the sequence [predict] returns:
    both signals accumulate into one [Map] entry per candidate. *)
Theorem predict_no_duplicates `{Engine} (st : store) (currentTags : list jsval)
    (dom : option string) :
  exists l, predict (Opened st) currentTags dom = Resolved l /\ NoDup l.
Proof.
  eexists. split; [apply predict_opened|].
  destruct (ranking_sublist
    (foldl Map_delete (association_scores st currentTags
                         (domain_scores st dom [])) currentTags))
    as (l & Hperm & Hsub).
  eapply sublist_NoDup; [|exact Hsub].
  rewrite Hperm. apply final_scores_NoDup.
Qed.

(** C6. For every store state, every sequence of current tags and every
    domain, [predict] returns no tag that is among the current tags; and
    after [learn(['soep','balletjes'])] on an empty store,
    [predict(['soep','balletjes'], null)] returns the empty sequence. *)
Theorem predict_excludes_current_tags `{Engine} (st : store)
    (currentTags : list jsval) (dom : option string) :
  (exists l, predict (Opened st) currentTags dom = Resolved l /\
             Forall (fun t => t ∉ l) currentTags) /\
  (forall now : clock,
     predict (Opened (learned empty_store (tagsOf ["soep"; "balletjes"]) None now))
             (tagsOf ["soep"; "balletjes"]) None = Resolved []).
Proof.
  split.
  - eexists. split; [apply predict_opened|].
    apply Forall_forall. intros t Ht Hin.
    destruct (ranking_sublist
      (foldl Map_delete (association_scores st currentTags
                           (domain_scores st dom [])) currentTags))
      as (l & Hperm & Hsub).
    eapply elem_of_sublist in Hin; [|exact Hsub].
    rewrite Hperm in Hin.
    apply delete_all_keys in Hin as [_ Hnot]. by apply Hnot.
  - intros now. vm_compute. reflexivity.
Qed.

(** ** Ranking *)

Section Ranking.







End Ranking.

(** ** The association signal *)

Section Association.

Lemma Map_get_set (m : Map) k v x :
  Map_get (Map_set m k v) x = if decide (k = x) then Some v else Map_get m x.
Proof.
  induction m as [|[k' v'] m IH]; simpl.
  - done.
  - destruct (decide (k' = k)) as [->|Hk]; simpl.
    + by destruct (decide (k = x)).
    + rewrite IH. destruct (decide (k' = x)) as [->|]; [|done].
      by rewrite decide_False.
Qed.

Lemma get_or_0_set (m : Map) k v x :
  get_or_0 (Map_set m k v) x = if decide (k = x) then v else get_or_0 m x.
Proof. unfold get_or_0. rewrite Map_get_set. by destruct (decide (k = x)). Qed.



Lemma Map_get_keys (m : Map) x : is_Some (Map_get m x) <-> x ∈ m.*1.
Proof.
  induction m as [|[k v] m IH]; simpl.
  - split; [by intros [? ?]|by intros ?%elem_of_nil].
  - destruct (decide (k = x)) as [->|Hk].
    + split; [intros _; left|by eexists].
    + rewrite IH, elem_of_cons. split; [by right|].
      by intros [-> | ?].
Qed.

(** What one stored pair does to the entry of [x]. *)
Lemma association_step_get ct (m : Map) stat x :
  Map_get (association_step ct m stat) x
  = if awards ct x stat
    then Some (Number_add (get_or_0 m x) (count stat))
    else Map_get m x.
Proof.
  unfold association_step, awards.
  set (tagA := Array_at (String_split "_" (pair stat)) 0).
  set (tagB := Array_at (String_split "_" (pair stat)) 1).
  destruct (Array_includes ct tagA) eqn:HA, (Array_includes ct tagB) eqn:HB;
    cbn [andb negb orb]; rewrite ?andb_false_r; cbn [orb];
    rewrite ?andb_true_r; try done.
  - rewrite Map_get_set. destruct (decide (tagB = x)) as [<-|Hne].
    + by rewrite bool_decide_eq_true_2.
    + by rewrite bool_decide_eq_false_2.
  - rewrite Map_get_set. destruct (decide (tagA = x)) as [<-|Hne].
    + by rewrite bool_decide_eq_true_2.
    + by rewrite bool_decide_eq_false_2.
Qed.



(** The keys of the score map: those it had, and the tags some stored
    pair awards. *)
Lemma association_fold_keys ct x (l : list TagStat) (m : Map) :
  x ∈ (foldl (association_step ct) m l).*1
  <-> x ∈ m.*1 \/ Exists (fun stat => awards ct x stat = true) l.
Proof.
  revert m. induction l as [|stat l IH]; intros m; simpl.
  - rewrite Exists_nil. tauto.
  - rewrite IH, Exists_cons.
    assert (Hstep : x ∈ (association_step ct m stat).*1
                    <-> x ∈ m.*1 \/ awards ct x stat = true).
    { rewrite <- !Map_get_keys, association_step_get.
      destruct (awards ct x stat); split; eauto.
      intros [? | ?]; [done|discriminate]. }
    tauto.
Qed.

End Association.


(** ** The pair key *)

Section PairKey.

Lemma ltb_asym a b : String.ltb a b = true -> String.ltb b a = false.
Proof.
  unfold String.ltb. rewrite (String.compare_antisym a b).
  destruct (String.compare b a); simpl; congruence.
Qed.

Lemma ltb_total a b :
  String.ltb a b = false -> String.ltb b a = false -> a = b.
Proof.
  unfold String.ltb. rewrite (String.compare_antisym a b).
  destruct (String.compare b a) eqn:E; simpl; try congruence.
  intros _ _. symmetry. by apply String.compare_eq_iff.
Qed.

(** [[a, b].sort()] on two strings swaps them exactly when [b < a]. *)
Lemma sort_two_strings a b :
  Array_sort SortCompare [JStr a; JStr b] =
  if String.ltb b a then [JStr b; JStr a] else [JStr a; JStr b].
Proof.
  unfold Array_sort. simpl.
  destruct (String.ltb a b) eqn:Hab.
  - rewrite (ltb_asym _ _ Hab). reflexivity.
  - destruct (String.ltb b a); reflexivity.
Qed.

Lemma _getPairKey_strings a b :
  _getPairKey (JStr a) (JStr b) =
  if String.ltb b a then b +:+ "_" +:+ a else a +:+ "_" +:+ b.
Proof.
  unfold _getPairKey. rewrite sort_two_strings.
  by destruct (String.ltb b a).
Qed.

(** The key does not depend on the order of the two names. *)
Lemma _getPairKey_comm a b :
  _getPairKey (JStr a) (JStr b) = _getPairKey (JStr b) (JStr a).
Proof.
  rewrite !_getPairKey_strings.
  destruct (String.ltb a b) eqn:Hab, (String.ltb b a) eqn:Hba; try reflexivity.
  - apply ltb_asym in Hab. congruence.
  - by rewrite (ltb_total _ _ Hab Hba).
Qed.

Lemma SortCompare_valid x y :
  valid_key x -> valid_key y ->
  SortCompare x y
  = if String.ltb (ToString x) (ToString y) then -1
    else if String.ltb (ToString y) (ToString x) then 1 else 0.
Proof. intros [kx Hx] [ky Hy]. by destruct x, y. Qed.

Lemma join_two_valid x y :
  valid_key x -> valid_key y ->
  Array_join "_" [x; y] = ToString x +:+ "_" +:+ ToString y.
Proof. intros [kx Hx] [ky Hy]. by destruct x, y. Qed.

(** The pair key of two valid keys is made of their string conversions,
    the smaller one first. *)
Lemma _getPairKey_valid x y :
  valid_key x -> valid_key y ->
  _getPairKey x y
  = if String.ltb (ToString y) (ToString x)
    then ToString y +:+ "_" +:+ ToString x
    else ToString x +:+ "_" +:+ ToString y.
Proof.
  intros Hx Hy. unfold _getPairKey, Array_sort. cbn [foldr sort_insert].
  rewrite (SortCompare_valid x y Hx Hy).
  destruct (String.ltb (ToString x) (ToString y)) eqn:Hxy.
  - rewrite (ltb_asym _ _ Hxy). simpl bool_decide. cbn [sort_insert].
    by apply join_two_valid.
  - destruct (String.ltb (ToString y) (ToString x)); simpl bool_decide;
      cbn [sort_insert]; by apply join_two_valid.
Qed.

End PairKey.

Local Open Scope list_scope.

(** ** The key-path invariant *)

Lemma empty_store_wf : store_wf empty_store.
Proof. repeat split; intros k r; simpl; by rewrite lookup_empty. Qed.

Lemma put_wf st p : store_wf st -> store_wf (put st p).
Proof.
  intros (Ht & Hs & Hd).
  destruct p as [r|r|r]; repeat split; simpl; try done; intros k r';
    (destruct (decide (name r = k)) as [<-|] ||
     destruct (decide (pair r = k)) as [<-|] ||
     destruct (decide (domain r = k)) as [<-|]);
    rewrite ?lookup_insert_eq, ?lookup_insert_ne by done;
    try (by intros [= <-]); auto.
Qed.

(** [learn] keeps every record under the value of its key path. *)
Lemma learned_wf st tags dom now :
  store_wf st -> store_wf (learned st tags dom now).
Proof.
  unfold learned, tx_complete.
  generalize (fired now st (placed (learn (Opened st) tags dom))).
  intros ps. revert st. induction ps as [|p ps IH]; intros st Hwf; simpl; [done|].
  by apply IH, put_wf.
Qed.

(** ** The requests [learn] places and the records they put *)

Section Effect.

Lemma fired_cons now st r q :
  fired now st (r :: q) = fire st (now 0%nat) r ++ fired (fun i => now (S i)) st q.
Proof. reflexivity. Qed.

Lemma fired_app now st q1 q2 :
  fired now st (q1 ++ q2)
  = fired now st q1 ++ fired (fun i => now (length q1 + i)%nat) st q2.
Proof.
  revert now. induction q1 as [|r q1 IH]; intros now; [done|].
  rewrite <- app_comm_cons, !fired_cons, IH. by rewrite app_assoc.
Qed.

Lemma tag_puts_app ps1 ps2 : tag_puts (ps1 ++ ps2) = tag_puts ps1 ++ tag_puts ps2.
Proof. apply omap_app. Qed.

Lemma stat_puts_app ps1 ps2 : stat_puts (ps1 ++ ps2) = stat_puts ps1 ++ stat_puts ps2.
Proof. apply omap_app. Qed.

Lemma domain_puts_app ps1 ps2 :
  domain_puts (ps1 ++ ps2) = domain_puts ps1 ++ domain_puts ps2.
Proof. apply omap_app. Qed.

Lemma puts_of_tags (l : list Tag) :
  tag_puts (map TagPut l) = l /\ stat_puts (map TagPut l) = [] /\
  domain_puts (map TagPut l) = [].
Proof.
  unfold tag_puts, stat_puts, domain_puts.
  repeat split; induction l as [|r l IH]; simpl; try done. by f_equal.
Qed.

Lemma puts_of_stats (l : list TagStat) :
  tag_puts (map StatPut l) = [] /\ stat_puts (map StatPut l) = l /\
  domain_puts (map StatPut l) = [].
Proof.
  unfold tag_puts, stat_puts, domain_puts.
  repeat split; induction l as [|r l IH]; simpl; try done. by f_equal.
Qed.

Lemma TAGS_foldl_put ps st :
  TAGS (foldl put st ps) = foldl (fun m r => <[name r := r]> m) (TAGS st) (tag_puts ps).
Proof.
  revert st. induction ps as [|[r|r|r] ps IH]; intros st; simpl; [done|..];
    by rewrite IH.
Qed.

Lemma TAG_STATS_foldl_put ps st :
  TAG_STATS (foldl put st ps)
  = foldl (fun m r => <[pair r := r]> m) (TAG_STATS st) (stat_puts ps).
Proof.
  revert st. induction ps as [|[r|r|r] ps IH]; intros st; simpl; [done|..];
    by rewrite IH.
Qed.

Lemma DOMAIN_STATS_foldl_put ps st :
  DOMAIN_STATS (foldl put st ps)
  = foldl (fun m r => <[domain r := r]> m) (DOMAIN_STATS st) (domain_puts ps).
Proof.
  revert st. induction ps as [|[r|r|r] ps IH]; intros st; simpl; [done|..];
    by rewrite IH.
Qed.

(** The position of the last occurrence, and membership. *)
Lemma last_position_None `{EqDecision K} (k : K) l :
  last_position k l = None <-> k ∉ l.
Proof.
  induction l as [|k' l IH]; simpl.
  - split; [intros _; apply not_elem_of_nil|done].
  - rewrite not_elem_of_cons.
    destruct (last_position k l) as [i|].
    + split; [done|]. intros [_ Hk]. by apply IH in Hk.
    + destruct (decide (k' = k)) as [->|Hne].
      * split; [done|]. by intros [? _].
      * split; [|done]. intros _. split; [done|]. by apply IH.
Qed.

Lemma last_position_Some `{EqDecision K} (k : K) l i :
  last_position k l = Some i ->
  l !! i = Some k /\ forall j, (i < j)%nat -> l !! j <> Some k.
Proof.
  revert i. induction l as [|k' l IH]; intros i; simpl; [done|].
  destruct (last_position k l) as [i'|] eqn:Hlast.
  - intros [= <-]. destruct (IH i' eq_refl) as [Hi Hafter].
    split; [done|]. intros [|j] Hj; [lia|]. simpl. apply Hafter. lia.
  - destruct (decide (k' = k)) as [->|Hne]; [|done].
    intros [= <-]. split; [done|].
    intros [|j] Hj; [lia|]. simpl. intros Hk.
    apply last_position_None in Hlast. apply Hlast.
    by eapply list_elem_of_lookup_2.
Qed.

Lemma last_position_elem `{EqDecision K} (k : K) l :
  k ∈ l -> exists i, last_position k l = Some i.
Proof.
  intros Hin. destruct (last_position k l) as [i|] eqn:Hlast; [by eexists|].
  by apply last_position_None in Hlast.
Qed.

(** Putting a record for every key of a run: the last put of a key
    stays. *)
Lemma lookup_indexed_puts {K V} `{Countable K} (key : V -> K) (P : K -> bool)
    (keys : list K) :
  forall (f : nat -> K -> V) (m : gmap K V) (k : K),
  (forall j k', key (f j k') = k') ->
  foldl (fun m r => <[key r := r]> m) m (indexed_puts P f keys) !! k
  = if P k then
      match last_position k keys with
      | Some j => Some (f j k)
      | None => m !! k
      end
    else m !! k.
Proof.
  induction keys as [|k' keys IH]; intros f m k Hkey; simpl.
  - by destruct (P k).
  - rewrite foldl_app, IH by (intros; apply Hkey).
    destruct (P k) eqn:HPk.
    + destruct (last_position k keys) as [j|]; [done|].
      destruct (decide (k' = k)) as [->|Hne].
      * rewrite HPk. simpl. by rewrite Hkey, lookup_insert_eq.
      * destruct (P k'); simpl; [|done].
        by rewrite Hkey, lookup_insert_ne.
    + destruct (P k') eqn:HPk'; simpl; [|done].
      rewrite Hkey, lookup_insert_ne; [done|]. congruence.
Qed.

Lemma indexed_puts_length {K V} (f : nat -> K -> V) (keys : list K) :
  length (indexed_puts (fun _ => true) f keys) = length keys.
Proof.
  revert f. induction keys as [|k keys IH]; intros f; simpl; [done|].
  by rewrite IH.
Qed.

Lemma indexed_puts_Forall {K V} (Q : V -> Prop) (P : K -> bool)
    (f : nat -> K -> V) (keys : list K) :
  (forall j k, Q (f j k)) -> Forall Q (indexed_puts P f keys).
Proof.
  revert f. induction keys as [|k keys IH]; intros f HQ; simpl; [constructor|].
  apply Forall_app. split; [|by apply IH].
  destruct (P k); by repeat constructor.
Qed.

(** Step 1: the callback of the i-th tag puts a record carrying the time
    it reads, unless the tag is in the store. *)
Lemma register_tags_fired st tags :
  forall now,
  fired now st (register_tags tags).1
  = map TagPut
      (indexed_puts (fun k => bool_decide (TAGS st !! k = None))
                    (fun j k => new_tag (now j) k) (reached_keys tags)).
Proof.
  induction tags as [|t tags IH]; intros now; simpl; [done|].
  destruct (to_key t) as [k|]; simpl; [|done].
  specialize (IH (fun i => now (S i))).
  destruct (register_tags tags) as [q thrown]; simpl in *.
  rewrite fired_cons, IH, map_app. f_equal. simpl.
  destruct (TAGS st !! k) eqn:Hk.
  - by rewrite bool_decide_eq_false_2.
  - by rewrite bool_decide_eq_true_2.
Qed.

Lemma register_tags_length tags :
  length (register_tags tags).1 = length (reached_keys tags).
Proof.
  induction tags as [|t tags IH]; simpl; [done|].
  destruct (to_key t) as [k|]; simpl; [|done].
  destruct (register_tags tags) as [q thrown]; simpl in *. by rewrite IH.
Qed.

Lemma register_tags_valid tags :
  Forall valid_key tags ->
  (register_tags tags).2 = None /\
  length (register_tags tags).1 = length tags.
Proof.
  induction 1 as [|t tags [k Hk] _ IH]; simpl; [done|].
  rewrite Hk. destruct (register_tags tags) as [q thrown]; simpl in *.
  destruct IH as [-> ->]. done.
Qed.

Lemma register_tags_invalid tags :
  Exists (fun t => ~ valid_key t) tags ->
  (register_tags tags).2 = Some DataError.
Proof.
  induction 1 as [t tags Ht|t tags _ IH]; simpl.
  - destruct (to_key t) eqn:Hk; [|done]. destruct Ht. by eexists.
  - destruct (to_key t); [|done].
    by destruct (register_tags tags) as [q thrown].
Qed.

Lemma register_tags_thrown tags :
  (register_tags tags).2 = None -> Forall valid_key tags.
Proof.
  intros Hnone. apply Forall_forall. intros t Ht.
  destruct (decide (valid_key t)) as [|Hbad]; [done|].
  assert (Hex : Exists (fun t => ~ valid_key t) tags).
  { apply Exists_exists. by exists t. }
  apply register_tags_invalid in Hex. congruence.
Qed.

Lemma reached_keys_valid tags :
  Forall valid_key tags -> map to_key tags = map Some (reached_keys tags).
Proof.
  induction 1 as [|t tags [k Hk] _ IH]; simpl; [done|].
  rewrite Hk. simpl. by rewrite IH.
Qed.

(** Step 2: the callback of the request of every pair of positions puts
    the incremented record, carrying the time it reads. *)
Lemma pair_requests_fired st tags :
  forall now,
  fired now st (pair_requests tags)
  = map StatPut
      (indexed_puts (fun _ => true)
                    (fun j k => incremented st (now j) k) (pair_keys tags)).
Proof.
  unfold pair_requests, pair_keys.
  induction (tag_pairs tags) as [|p l IH]; intros now; simpl; [done|].
  by rewrite fired_cons, IH.
Qed.

(** Step 3: one put of the counted profile, for a truthy domain. *)
Lemma domain_requests_fired now st tags dom :
  fired now st (domain_requests tags dom)
  = match dom with
    | Some d => if truthy dom then [DomainPut (counted st tags d)] else []
    | None => []
    end.
Proof.
  unfold domain_requests. destruct dom as [d|]; [|done].
  by destruct (truthy (Some d)).
Qed.

(** The requests on the transaction of a call: those of step 1 as far as
    it came, and those of steps 2 and 3 when it came through. *)
Lemma learn_placed st tags dom :
  placed (learn (Opened st) tags dom)
  = (register_tags tags).1
    ++ (if bool_decide (tags <> [] /\ Forall valid_key tags)
        then pair_requests tags ++ domain_requests tags dom else []).
Proof.
  unfold learn, placed. case_bool_decide as Hlen.
  - destruct tags; [|done].
    rewrite bool_decide_eq_false_2; [done|]. by intros [? _].
  - cbn [Database_get].
    destruct (register_tags tags) as [q [e|]] eqn:Hreg; cbn [tx requests fst].
    + rewrite bool_decide_eq_false_2; [by rewrite app_nil_r|].
      intros [_ Hvalid]. apply register_tags_valid in Hvalid as [Hnone _].
      rewrite Hreg in Hnone. done.
    + rewrite bool_decide_eq_true_2; [done|].
      split; [by destruct tags|].
      apply register_tags_thrown. by rewrite Hreg.
Qed.

Lemma learn_valid st tags dom :
  tags <> [] -> Forall valid_key tags ->
  learn (Opened st) tags dom =
  {| promise := Resolved tt;
     tx := Some {| storeNames := STORES_of_learn; tx_mode := Readwrite;
                   requests := (register_tags tags).1 ++ pair_requests tags
                               ++ domain_requests tags dom |} |}.
Proof.
  intros Hne Hvalid. unfold learn.
  case_bool_decide as Hlen; [by destruct tags|]. simpl.
  destruct (register_tags_valid tags Hvalid) as [Hthrown _].
  destruct (register_tags tags) as [q thrown]; simpl in *. by subst.
Qed.

(** A value the store refuses as a key makes the call fail. *)
Lemma learn_invalid_promise st tags dom :
  Exists (fun t => ~ valid_key t) tags ->
  promise (learn (Opened st) tags dom) = Rejected DataError.
Proof.
  intros Hex. unfold learn.
  case_bool_decide as Hlen.
  { destruct tags; [by apply Exists_nil in Hex|done]. }
  simpl. pose proof (register_tags_invalid tags Hex) as Hthrown.
  destruct (register_tags tags) as [q thrown]; simpl in *. by subst.
Qed.

Lemma tagsOf_valid names : Forall valid_key (tagsOf names).
Proof. apply Forall_fmap, Forall_true. intros s. by eexists. Qed.

Lemma incremented_wf st now key :
  store_wf st ->
  incremented st now key
  = {| pair := key; count := Number_inc (pair_count st key); lastSeen := now |}.
Proof.
  intros (_ & Hwf & _). unfold incremented, pair_count.
  destruct (TAG_STATS st !! key) as [item|] eqn:Hitem; simpl; [|done].
  by rewrite (Hwf _ _ Hitem).
Qed.

Lemma counted_domain st tags d :
  store_wf st -> domain (counted st tags d) = d.
Proof.
  intros (_ & _ & Hwf). unfold counted.
  destruct (DOMAIN_STATS st !! d) as [r|] eqn:Hr; simpl; [|done].
  by apply Hwf.
Qed.

(** The tag records a call puts. *)
Lemma learned_tag_puts st tags dom now :
  tag_puts (fired now st (placed (learn (Opened st) tags dom)))
  = indexed_puts (fun k => bool_decide (TAGS st !! k = None))
                 (fun j k => new_tag (now j) k) (reached_keys tags).
Proof.
  rewrite learn_placed, fired_app, tag_puts_app, register_tags_fired.
  rewrite (proj1 (puts_of_tags _)).
  case_bool_decide; [|by rewrite app_nil_r].
  rewrite fired_app, tag_puts_app, pair_requests_fired, domain_requests_fired.
  rewrite (proj1 (puts_of_stats _)).
  destruct dom as [d|]; [|by rewrite app_nil_r].
  destruct (truthy (Some d)); by rewrite app_nil_r.
Qed.

(** The pair records a call puts: none when the call stopped before step
    2, else one for every pair of positions, the j-th by the request
    behind those of the tags. *)
Lemma learned_stat_puts st tags dom now :
  stat_puts (fired now st (placed (learn (Opened st) tags dom)))
  = if bool_decide (tags <> [] /\ Forall valid_key tags)
    then indexed_puts (fun _ => true)
           (fun j k => incremented st (now (length tags + j)%nat) k)
           (pair_keys tags)
    else [].
Proof.
  rewrite learn_placed, fired_app, stat_puts_app, register_tags_fired.
  rewrite (proj1 (proj2 (puts_of_tags _))).
  case_bool_decide as Hcase; [|done].
  destruct Hcase as [_ Hvalid].
  rewrite (proj2 (register_tags_valid tags Hvalid)).
  rewrite fired_app, stat_puts_app, pair_requests_fired, domain_requests_fired.
  rewrite (proj1 (proj2 (puts_of_stats _))). simpl.
  destruct dom as [d|]; [|by rewrite app_nil_r].
  destruct (truthy (Some d)); by rewrite app_nil_r.
Qed.

(** The domain profile a call puts. *)
Lemma learned_domain_puts st tags dom now :
  domain_puts (fired now st (placed (learn (Opened st) tags dom)))
  = match dom with
    | Some d =>
        if bool_decide (tags <> [] /\ Forall valid_key tags) && truthy dom
        then [counted st tags d] else []
    | None => []
    end.
Proof.
  rewrite learn_placed, fired_app, domain_puts_app, register_tags_fired.
  rewrite (proj2 (proj2 (puts_of_tags _))).
  case_bool_decide as Hcase; simpl.
  - rewrite fired_app, domain_puts_app, pair_requests_fired, domain_requests_fired.
    rewrite (proj2 (proj2 (puts_of_stats _))). simpl.
    destruct dom as [d|]; [|done]. by destruct (truthy (Some d)).
  - by destruct dom.
Qed.

End Effect.

(** The tag store after a call, key by key: a record that exists stays,
    and a key the call reaches that has none gets one, created at the
    time the callback of its last request read. *)
Lemma learned_TAGS_lookup (st : store) (tags : list jsval)
    (dom : option string) (now : clock) (k : idbkey) :
  TAGS (learned st tags dom now) !! k
  = match TAGS st !! k with
    | Some r => Some r
    | None =>
        match last_position k (reached_keys tags) with
        | Some i => Some {| name := k; created := now i;
                            parent := None; color := None |}
        | None => None
        end
    end.
Proof.
  unfold learned, tx_complete.
  rewrite TAGS_foldl_put, learned_tag_puts.
  rewrite (lookup_indexed_puts name) by done.
  destruct (TAGS st !! k) as [r|] eqn:Hk.
  - by rewrite bool_decide_eq_false_2.
  - rewrite bool_decide_eq_true_2 by done.
    by destruct (last_position k (reached_keys tags)).
Qed.

(** The pair counters after a call with valid tags, key by key: the
    counter of a pair key of the input is raised once, and carries the
    time the callback of the last request on the key read; every other
    record stays. *)
Lemma learned_TAG_STATS_lookup (st : store) (tags : list jsval)
    (dom : option string) (now : clock) (k : string) :
  store_wf st ->
  Forall valid_key tags ->
  TAG_STATS (learned st tags dom now) !! k
  = match last_position k (pair_keys tags) with
    | Some j => Some {| pair := k; count := Number_inc (pair_count st k);
                        lastSeen := now (length tags + j)%nat |}
    | None => TAG_STATS st !! k
    end.
Proof.
  intros Hwf Hvalid. unfold learned, tx_complete.
  rewrite TAG_STATS_foldl_put, learned_stat_puts.
  destruct (decide (tags <> [] /\ Forall valid_key tags)) as [Hcase|Hcase].
  - rewrite (bool_decide_eq_true_2 _ Hcase).
    rewrite (lookup_indexed_puts pair)
      by (intros; by rewrite incremented_wf).
    destruct (last_position k (pair_keys tags)); [|done].
    by rewrite incremented_wf.
  - rewrite (bool_decide_eq_false_2 _ Hcase).
    assert (tags = []) as ->.
    { destruct tags; [done|]. destruct Hcase. by split. }
    done.
Qed.

(** The pair counters a rejected call leaves, and the domain profiles a
    call leaves. *)
Lemma learned_TAG_STATS_invalid st tags dom now :
  ~ (tags <> [] /\ Forall valid_key tags) ->
  TAG_STATS (learned st tags dom now) = TAG_STATS st.
Proof.
  intros Hcase. unfold learned, tx_complete.
  rewrite TAG_STATS_foldl_put, learned_stat_puts.
  by rewrite (bool_decide_eq_false_2 _ Hcase).
Qed.

Lemma learned_DOMAIN_STATS st tags dom now :
  store_wf st ->
  DOMAIN_STATS (learned st tags dom now)
  = match dom with
    | Some d =>
        if bool_decide (tags <> [] /\ Forall valid_key tags) && truthy dom
        then <[d := counted st tags d]> (DOMAIN_STATS st)
        else DOMAIN_STATS st
    | None => DOMAIN_STATS st
    end.
Proof.
  intros Hwf. unfold learned, tx_complete.
  rewrite DOMAIN_STATS_foldl_put, learned_domain_puts.
  destruct dom as [d|]; [|done].
  destruct (_ && _); [|done]. cbn [foldl]. by rewrite counted_domain.
Qed.

(** ** Properties of [learn] *)

(** C8. [learn] with an empty tag list, with or without a domain and
    whether or not the database can be opened, resolves without an error
    and creates no transaction and places no request: the store is left
    as it was, with no tag, pair or domain record created or updated. *)
Theorem learn_empty_is_noop (db : database) (dom : option string) :
  learn db [] dom = {| promise := Resolved tt; tx := None |} /\
  placed (learn db [] dom) = [] /\
  (forall st now, learned st [] dom now = st).
Proof. repeat split. Qed.

Section Pairs.

Lemma tag_pairs_elem (l : list jsval) a b :
  (a, b) ∈ tag_pairs l -> a ∈ l /\ b ∈ l.
Proof.
  induction l as [|t l IH]; simpl; [by intros ?%elem_of_nil|].
  rewrite elem_of_app, list_elem_of_fmap, !elem_of_cons.
  intros [(u & Heq & Hu)|H].
  - inversion Heq; subst. tauto.
  - destruct (IH H). tauto.
Qed.

(** The pairs of step 2 are those of two positions [i < j]. *)
Lemma tag_pairs_positions (l : list jsval) a b :
  (a, b) ∈ tag_pairs l <->
  exists i j, (i < j)%nat /\ l !! i = Some a /\ l !! j = Some b.
Proof.
  induction l as [|t l IH]; simpl.
  - split; [by intros ?%elem_of_nil|]. by intros (i & j & _ & ? & _).
  - rewrite elem_of_app, list_elem_of_fmap, IH. split.
    + intros [(u & Heq & Hu)|(i & j & Hij & Hi & Hj)].
      * inversion Heq; subst.
        apply list_elem_of_lookup in Hu as [j Hj].
        exists 0%nat, (S j). repeat split; [lia|done..].
      * exists (S i), (S j). repeat split; [lia|done..].
    + intros (i & j & Hij & Hi & Hj).
      destruct j as [|j]; [lia|]. simpl in Hj.
      destruct i as [|i]; simpl in Hi.
      * left. inversion Hi; subst. exists b. split; [done|].
        by eapply list_elem_of_lookup_2.
      * right. exists i, j. repeat split; [lia|done..].
Qed.

(** Without a repeated value, the two members of a pair differ. *)
Lemma tag_pairs_distinct (l : list jsval) a b :
  NoDup l -> (a, b) ∈ tag_pairs l -> a <> b.
Proof.
  induction l as [|t l IH]; simpl; [by intros _ ?%elem_of_nil|].
  intros [Ht Hnd]%NoDup_cons.
  rewrite elem_of_app, list_elem_of_fmap.
  intros [(u & Heq & Hu)|H]; [|by apply IH].
  inversion Heq; subst. by intros ->.
Qed.

(** A value at two positions is paired with itself. *)
Lemma tag_pairs_repeated (l1 l2 l3 : list jsval) a :
  (a, a) ∈ tag_pairs (l1 ++ a :: l2 ++ a :: l3).
Proof.
  induction l1 as [|t l1 IH]; simpl; apply elem_of_app.
  - left. apply list_elem_of_fmap. exists a. split; [done|].
    apply elem_of_app. right. left.
  - by right.
Qed.

Lemma pair_keys_elem (tags : list jsval) k :
  k ∈ pair_keys tags <->
  exists a b, (a, b) ∈ tag_pairs tags /\ k = _getPairKey a b.
Proof.
  unfold pair_keys. rewrite list_elem_of_fmap. split.
  - intros ([a b] & -> & Hab). by exists a, b.
  - intros (a & b & Hab & ->). by exists (a, b).
Qed.

(** The count a call leaves on a pair key of its input. *)
Lemma learned_pair_count st tags dom now k :
  store_wf st -> Forall valid_key tags -> k ∈ pair_keys tags ->
  (fun r => Number_val (count r)) <$> TAG_STATS (learned st tags dom now) !! k
  = Some (Z.min (pair_count st k + 1) (2 ^ 53)).
Proof.
  intros Hwf Hvalid Hk. rewrite learned_TAG_STATS_lookup by done.
  destruct (last_position_elem _ _ Hk) as [j ->]. simpl.
  by rewrite Number_inc_val.
Qed.

Lemma learned_pair_untouched st tags dom now k :
  store_wf st -> Forall valid_key tags -> k ∉ pair_keys tags ->
  TAG_STATS (learned st tags dom now) !! k = TAG_STATS st !! k.
Proof.
  intros Hwf Hvalid Hk. rewrite learned_TAG_STATS_lookup by done.
  apply last_position_None in Hk. by rewrite Hk.
Qed.

(** Every valid tag the call reaches is registered afterwards. *)
Lemma learned_tag_registered st tags dom now k :
  k ∈ reached_keys tags -> is_Some (TAGS (learned st tags dom now) !! k).
Proof.
  intros Hk. rewrite learned_TAGS_lookup.
  destruct (TAGS st !! k); [by eexists|].
  destruct (last_position_elem _ _ Hk) as [i ->]. by eexists.
Qed.

Lemma reached_keys_elem tags t k :
  Forall valid_key tags -> t ∈ tags -> to_key t = Some k ->
  k ∈ reached_keys tags.
Proof.
  induction 1 as [|u tags [ku Hku] _ IH]; [by intros ?%elem_of_nil|].
  simpl. rewrite Hku. intros [-> | Ht]%elem_of_cons Hk.
  - assert (ku = k) as -> by congruence. left.
  - right. by apply IH.
Qed.

(** The pair counters after a call depend on the pair counters before
    it, on the pair keys of the input and on the clock only. *)
Lemma learned_TAG_STATS_ext st1 st2 tags1 tags2 dom1 dom2 now :
  store_wf st1 -> store_wf st2 ->
  Forall valid_key tags1 -> Forall valid_key tags2 ->
  TAG_STATS st1 = TAG_STATS st2 ->
  pair_keys tags1 = pair_keys tags2 -> length tags1 = length tags2 ->
  TAG_STATS (learned st1 tags1 dom1 now) = TAG_STATS (learned st2 tags2 dom2 now).
Proof.
  intros Hwf1 Hwf2 Hv1 Hv2 Hst Hkeys Hlen. apply map_eq. intros k.
  rewrite !learned_TAG_STATS_lookup by done.
  unfold pair_count. by rewrite Hst, Hkeys, Hlen.
Qed.

End Pairs.

(** ** The order of the tags *)

(** C4, as the code has it. From an empty store, [learn] with two
    distinct tags A and B gives the pair record of (A, B) the count 1,
    and a second call gives it the count 2. The pair store is the same
    whether the tags are passed as A, B or as B, A, in either call, and
    the same tags are registered. The rest of the store is the same only
    when the clock stands still between the callbacks of the two tags
    and no domain is given: a tag record is created at the time its own
    callback reads, and the profile of a domain lists the tags in the
    order of the input. *)
Theorem learn_pair_count_order_independent (A B : string)
    (dom : option string) (t1 t2 : clock) :
  A <> B ->
  let key := _getPairKey (JStr A) (JStr B) in
  let once := learned empty_store (tagsOf [A; B]) dom t1 in
  let twice := learned once (tagsOf [A; B]) dom t2 in
  let once' := learned empty_store (tagsOf [B; A]) dom t1 in
  TAG_STATS once !! key
    = Some {| pair := key; count := num 1; lastSeen := t1 2%nat |} /\
  TAG_STATS twice !! key
    = Some {| pair := key; count := num 2; lastSeen := t2 2%nat |} /\
  TAG_STATS once' = TAG_STATS once /\
  TAG_STATS (learned once (tagsOf [B; A]) dom t2) = TAG_STATS twice /\
  TAG_STATS (learned once' (tagsOf [B; A]) dom t2) = TAG_STATS twice /\
  TAG_STATS (learned once' (tagsOf [A; B]) dom t2) = TAG_STATS twice /\
  (forall k, is_Some (TAGS once' !! k) <-> is_Some (TAGS once !! k)) /\
  (t1 0%nat = t1 1%nat -> truthy dom = false -> once' = once).
Proof.
  intros Hne key once twice once'.
  assert (Hkeys : pair_keys (tagsOf [B; A]) = pair_keys (tagsOf [A; B])).
  { unfold pair_keys. simpl. by rewrite (_getPairKey_comm B A). }
  assert (Hwf : store_wf once) by apply learned_wf, empty_store_wf.
  assert (Hwf' : store_wf once') by apply learned_wf, empty_store_wf.
  assert (Honce : TAG_STATS once' = TAG_STATS once).
  { apply learned_TAG_STATS_ext;
      auto using empty_store_wf, tagsOf_valid. }
  assert (Hkey1 : TAG_STATS once !! key
                  = Some {| pair := key; count := num 1; lastSeen := t1 2%nat |}).
  { unfold once. rewrite learned_TAG_STATS_lookup
      by auto using empty_store_wf, tagsOf_valid.
    unfold pair_keys. cbn [tagsOf map tag_pairs app fst snd last_position].
    fold key. rewrite decide_True by done. reflexivity. }
  split; [exact Hkey1|]. split.
  { unfold twice. rewrite learned_TAG_STATS_lookup
      by auto using tagsOf_valid.
    unfold pair_keys. cbn [tagsOf map tag_pairs app fst snd last_position].
    fold key. rewrite decide_True by done.
    unfold pair_count. rewrite Hkey1. reflexivity. }
  split; [exact Honce|].
  split; [apply learned_TAG_STATS_ext; auto using tagsOf_valid|].
  split; [apply learned_TAG_STATS_ext; auto using tagsOf_valid|].
  split; [apply learned_TAG_STATS_ext; auto using tagsOf_valid|].
  split.
  - intros k. unfold once', once. rewrite !learned_TAGS_lookup.
    cbn [TAGS empty_store]. rewrite !lookup_empty.
    cbn [tagsOf map reached_keys to_key last_position].
    destruct (decide (KStr A = k)) as [HA|HA], (decide (KStr B = k)) as [HB|HB];
      split; intros [? ?]; (by eexists) || done.
  - intros Htime Hdom.
    assert (Hdoms : DOMAIN_STATS once' = DOMAIN_STATS once).
    { unfold once', once.
      rewrite !learned_DOMAIN_STATS by apply empty_store_wf.
      destruct dom as [d|]; [|done]. rewrite Hdom. by rewrite !andb_false_r. }
    assert (Htags : TAGS once' = TAGS once).
    { apply map_eq. intros k. unfold once', once. rewrite !learned_TAGS_lookup.
      cbn [TAGS empty_store]. rewrite !lookup_empty.
      cbn [tagsOf map reached_keys to_key last_position].
      destruct (decide (KStr A = k)) as [HA|HA], (decide (KStr B = k)) as [HB|HB];
        rewrite ?Htime; done. }
    destruct once' as [T1 S1 D1], once as [T2 S2 D2]. simpl in *. by subst.
Qed.

Lemma learn_pair_count_order_independent_witness :
  "pasta" <> "tomaat" /\
  TAG_STATS (learned (learned empty_store (tagsOf ["tomaat"; "pasta"])
                              (Some "ah.nl") ticking)
                     (tagsOf ["tomaat"; "pasta"]) (Some "ah.nl") ticking)
  = TAG_STATS (learned (learned empty_store (tagsOf ["pasta"; "tomaat"])
                                (Some "ah.nl") ticking)
                       (tagsOf ["pasta"; "tomaat"]) (Some "ah.nl") ticking).
Proof.
  split; [discriminate|].
  apply (learn_pair_count_order_independent
           "pasta" "tomaat" (Some "ah.nl") ticking ticking).
  discriminate.
Defined.

(** C4, as the claim states it, fails: the store is not the same for the
    two orders. With a clock that ticks between the callbacks the tag A
    is created at another time, and with a domain the profile lists the
    tags in another order, which [predict] returns. *)
Lemma learn_order_shows_in_the_store :
  created <$> TAGS (learned empty_store (tagsOf ["A"; "B"]) None ticking)
                !! KStr "A" = Some 0 /\
  created <$> TAGS (learned empty_store (tagsOf ["B"; "A"]) None ticking)
                !! KStr "A" = Some 1 /\
  predict (Opened (learned empty_store (tagsOf ["A"; "B"]) (Some "ah.nl")
                           (frozen 0)))
          [] (Some "ah.nl") = Resolved [JStr "A"; JStr "B"] /\
  predict (Opened (learned empty_store (tagsOf ["B"; "A"]) (Some "ah.nl")
                           (frozen 0)))
          [] (Some "ah.nl") = Resolved [JStr "B"; JStr "A"].
Proof. repeat split; vm_compute; reflexivity. Qed.

(** ** Duplicate tag names *)

(** C1, as the code has it. [learn] pairs the positions of its input and
    does not remove duplicates. The pair counters a call raises are
    exactly those of the pair keys of two positions [i < j]; each is
    raised by 1, once per call however many pairs of positions share the
    key, a counter at 2^53 staying there; every other pair record is left
    as it was. For an input without a repeated tag name these are keys
    of two distinct names of the input; a name that stands at two
    positions of the input is paired with itself. *)
Theorem learn_pairs_positions_not_names (st : store) (names : list string)
    (dom : option string) (now : clock) :
  store_wf st ->
  let st' := learned st (tagsOf names) dom now in
  (forall k, k ∈ pair_keys (tagsOf names) <->
             exists i j a b, (i < j)%nat /\ names !! i = Some a /\
                             names !! j = Some b /\
                             k = _getPairKey (JStr a) (JStr b)) /\
  (forall k, k ∈ pair_keys (tagsOf names) ->
             (fun r => Number_val (count r)) <$> TAG_STATS st' !! k
             = Some (Z.min (pair_count st k + 1) (2 ^ 53))) /\
  (forall k, k ∉ pair_keys (tagsOf names) ->
             TAG_STATS st' !! k = TAG_STATS st !! k) /\
  (NoDup names ->
   forall k, k ∈ pair_keys (tagsOf names) ->
             exists a b, a ∈ names /\ b ∈ names /\ a <> b /\
                         k = _getPairKey (JStr a) (JStr b)) /\
  (forall (l1 l2 l3 : list string) (a : string),
     names = l1 ++ a :: l2 ++ a :: l3 ->
     _getPairKey (JStr a) (JStr a) ∈ pair_keys (tagsOf names)).
Proof.
  intros Hwf st'.
  pose proof (tagsOf_valid names) as Hvalid.
  split; [|split; [|split; [|split]]].
  - intros k. rewrite pair_keys_elem. split.
    + intros (x & y & Hxy & ->).
      apply tag_pairs_positions in Hxy as (i & j & Hij & Hi & Hj).
      unfold tagsOf in Hi, Hj. rewrite list_lookup_fmap in Hi, Hj.
      destruct (names !! i) as [a|] eqn:Ha; [|done].
      destruct (names !! j) as [b|] eqn:Hb; [|done].
      simpl in Hi, Hj. inversion Hi; inversion Hj; subst.
      by exists i, j, a, b.
    + intros (i & j & a & b & Hij & Hi & Hj & ->).
      exists (JStr a), (JStr b). split; [|done].
      apply tag_pairs_positions. exists i, j.
      unfold tagsOf. rewrite !list_lookup_fmap, Hi, Hj. done.
  - intros k Hk. by apply learned_pair_count.
  - intros k Hk. by apply learned_pair_untouched.
  - intros Hnd k (x & y & Hxy & ->)%pair_keys_elem.
    assert (Hnd' : NoDup (tagsOf names)).
    { apply (NoDup_fmap_2 JStr), Hnd. }
    pose proof (tag_pairs_distinct _ _ _ Hnd' Hxy) as Hdiff.
    destruct (tag_pairs_elem _ _ _ Hxy) as [Hx Hy].
    apply list_elem_of_fmap in Hx as (a & -> & Ha).
    apply list_elem_of_fmap in Hy as (b & -> & Hb).
    exists a, b. repeat split; try done. congruence.
  - intros l1 l2 l3 a ->. apply pair_keys_elem.
    exists (JStr a), (JStr a). split; [|done].
    unfold tagsOf. rewrite map_app. simpl. rewrite map_app. simpl.
    apply tag_pairs_repeated.
Qed.

Lemma learn_pairs_positions_not_names_witness :
  store_wf empty_store /\
  (fun r => Number_val (count r))
    <$> TAG_STATS (learned empty_store (tagsOf ["A"; "B"; "A"]) None ticking)
          !! "A_B"
  = Some 1.
Proof.
  split; [apply empty_store_wf|].
  apply (learn_pairs_positions_not_names empty_store ["A"; "B"; "A"] None
           ticking empty_store_wf).
  vm_compute. left.
Defined.

(** C1, as the claim states it, fails: [learn(['A','A'])] on an empty
    store creates the record of A paired with itself. *)
Lemma learn_duplicate_creates_self_pair :
  _getPairKey (JStr "A") (JStr "A") = "A_A" /\
  TAG_STATS (learned empty_store (tagsOf ["A"; "A"]) None ticking) !! "A_A"
  = Some {| pair := "A_A"; count := num 1; lastSeen := 2 |}.
Proof. split; vm_compute; reflexivity. Qed.

(** ** Tags that are not strings *)

(** C9, as the code has it. [learn] does not check the type of its tags.
    When every tag is a string or a number, the call resolves without an
    error and every tag is registered in the store under its own key, a
    number under the number. In the pair key a number stands as its
    decimal numeral, so that a number and the string of its numeral have
    the same pair keys. The call is rejected only when a tag is a value
    the store refuses as a key, and then with the store's [DataError]. *)
Theorem learn_checks_no_tag_type (st : store) (tags : list jsval)
    (dom : option string) (now : clock) :
  tags <> [] ->
  (Forall valid_key tags ->
   promise (learn (Opened st) tags dom) = Resolved tt /\
   Forall (fun t => exists k, to_key t = Some k /\
                      is_Some (TAGS (learned st tags dom now) !! k)) tags) /\
  (Exists (fun t => ~ valid_key t) tags ->
   promise (learn (Opened st) tags dom) = Rejected DataError) /\
  (forall (n : number) (t : jsval),
     valid_key t ->
     to_key (JNum n) = Some (KNum n) /\
     _getPairKey (JNum n) t = _getPairKey (JStr (pretty (Number_val n))) t /\
     _getPairKey t (JNum n) = _getPairKey t (JStr (pretty (Number_val n)))).
Proof.
  intros Hne. split; [|split].
  - intros Hvalid.
    split; [by rewrite (learn_valid st tags dom Hne Hvalid)|].
    apply Forall_forall. intros t Ht.
    destruct (proj1 (Forall_forall _ _) Hvalid t Ht) as [k Hk].
    exists k. split; [done|].
    apply learned_tag_registered. by eapply reached_keys_elem.
  - apply learn_invalid_promise.
  - intros n t Ht. split; [done|].
    assert (Hn : valid_key (JNum n)) by by eexists.
    assert (Hs : valid_key (JStr (pretty (Number_val n)))) by by eexists.
    by rewrite !_getPairKey_valid.
Qed.

Lemma learn_checks_no_tag_type_witness :
  [JNum (num 5); JStr "a"] <> [] /\
  promise (learn (Opened empty_store) [JNum (num 5); JStr "a"] None) = Resolved tt /\
  Forall (fun t => exists k, to_key t = Some k /\
            is_Some (TAGS (learned empty_store [JNum (num 5); JStr "a"] None ticking)
                       !! k))
         [JNum (num 5); JStr "a"].
Proof.
  split; [discriminate|].
  apply (learn_checks_no_tag_type empty_store [JNum (num 5); JStr "a"] None ticking).
  - discriminate.
  - repeat constructor; by eexists.
Defined.

(** C9, as the claim states it, fails: the number 5 is accepted as a tag,
    the call resolves, the tag is registered under the number 5, and the
    pair key holds the number printed as the string "5". *)
Lemma learn_number_tag_not_rejected :
  promise (learn (Opened empty_store) [JNum (num 5); JStr "a"] None) = Resolved tt /\
  name <$> TAGS (learned empty_store [JNum (num 5); JStr "a"] None ticking)
             !! KNum 5 = Some (KNum 5) /\
  TAG_STATS (learned empty_store [JNum (num 5); JStr "a"] None ticking) !! "5_a"
  = Some {| pair := "5_a"; count := num 1; lastSeen := 2 |}.
Proof. repeat split; vm_compute; reflexivity. Qed.

(** ** Returning and committing *)

Section Connection.



End Connection.




(** ** Splitting the pair key *)

Section SplitKey.

Lemma split_free sep s :
  free_of sep s = true -> String_split sep s = [s].
Proof.
  induction s as [|c s IH]; simpl; [done|].
  destruct (Ascii.eqb c sep); simpl; [done|].
  intros ->%IH. done.
Qed.

Lemma split_joined sep a b :
  free_of sep a = true ->
  String_split sep (a +:+ String sep b) = a :: String_split sep b.
Proof.
  induction a as [|c a IH]; simpl.
  - by rewrite Ascii.eqb_refl.
  - destruct (Ascii.eqb c sep); simpl; [done|].
    intros ->%IH. done.
Qed.

(** For two names without an underscore, [predict] reads back from the
    key the two names [learn] joined, in sorted order. *)
Lemma split_pair_key_without_underscore a b :
  free_of "_" a = true -> free_of "_" b = true ->
  String_split "_" (_getPairKey (JStr a) (JStr b)) =
  if String.ltb b a then [b; a] else [a; b].
Proof.
  intros Ha Hb. rewrite _getPairKey_strings.
  destruct (String.ltb b a).
  - change (b +:+ "_" +:+ a) with (b +:+ String "_" a).
    by rewrite split_joined, split_free.
  - change (a +:+ "_" +:+ b) with (a +:+ String "_" b).
    by rewrite split_joined, split_free.
Qed.

End SplitKey.

(** C2 at 'a_b' and 'c'. The underscore that joins the two names is also
    legal inside a name: the key of ('a_b', 'c') splits into 'a', 'b' and
    'c', it is also the key of ('a', 'b_c'), and after
    [learn(['a_b','c'])] [predict(['c'])] suggests nothing while
    [predict(['a'])] suggests 'b', a tag that was never learned. *)
Theorem pair_key_split_loses_underscore_names `{Engine} (now : clock) :
  let st := learned empty_store (tagsOf ["a_b"; "c"]) None now in
  _getPairKey (JStr "a_b") (JStr "c") = "a_b_c" /\
  String_split "_" "a_b_c" = ["a"; "b"; "c"] /\
  _getPairKey (JStr "a") (JStr "b_c") = "a_b_c" /\
  predict (Opened st) (tagsOf ["c"]) None = Resolved [] /\
  predict (Opened st) (tagsOf ["a"]) None = Resolved [JStr "b"].
Proof. repeat split; vm_compute; reflexivity. Qed.

(** ** The effect of [learn] on each object store *)

(** X1. One call of [learn] with valid tags raises the counter of every
    pair key of its input once, however often the key occurs in the
    input: the count goes up by 1, a count of 2^53 staying, a new record
    starts at 1. The record carries the time read by the callback of the
    last request on its key, the requests of the pairs following those
    of the tags. Every other pair record is left as it was. *)
Theorem learn_adds_one_per_pair_key (st : store) (tags : list jsval)
    (dom : option string) (now : clock) (k : string) :
  store_wf st ->
  Forall valid_key tags ->
  TAG_STATS (learned st tags dom now) !! k
  = match last_position k (pair_keys tags) with
    | Some j => Some {| pair := k; count := Number_inc (pair_count st k);
                        lastSeen := now (length tags + j)%nat |}
    | None => TAG_STATS st !! k
    end /\
  (k ∈ pair_keys tags ->
   (fun r => Number_val (count r)) <$> TAG_STATS (learned st tags dom now) !! k
   = Some (Z.min (pair_count st k + 1) (2 ^ 53))) /\
  (k ∉ pair_keys tags ->
   TAG_STATS (learned st tags dom now) !! k = TAG_STATS st !! k).
Proof.
  intros Hwf Hvalid. split; [by apply learned_TAG_STATS_lookup|].
  split; intros Hk; [by apply learned_pair_count|by apply learned_pair_untouched].
Qed.

Lemma learn_adds_one_per_pair_key_witness :
  TAG_STATS (learned (learned empty_store (tagsOf ["a"; "b"; "a"]) None ticking)
                     (tagsOf ["b"; "a"; "c"]) None ticking) !! "a_b"
  = Some {| pair := "a_b"; count := num 2; lastSeen := 3 |}.
Proof.
  destruct (learn_adds_one_per_pair_key
              (learned empty_store (tagsOf ["a"; "b"; "a"]) None ticking)
              (tagsOf ["b"; "a"; "c"]) None ticking "a_b") as [Hlookup _].
  - apply learned_wf, empty_store_wf.
  - apply tagsOf_valid.
  - rewrite Hlookup. vm_compute. reflexivity.
Defined.

(** X2. [learn] never touches a tag record that exists: its creation time
    stays. A tag of the input that is not in the store yet (up to the
    first value the store refuses as a key) is registered with no parent
    or color and with the time read by the callback of the last request
    for it; no other tag record appears. *)
Theorem learn_registers_new_tags_only (st : store) (tags : list jsval)
    (dom : option string) (now : clock) (k : idbkey) :
  TAGS (learned st tags dom now) !! k
  = match TAGS st !! k with
    | Some r => Some r
    | None =>
        match last_position k (reached_keys tags) with
        | Some i => Some {| name := k; created := now i;
                            parent := None; color := None |}
        | None => None
        end
    end.
Proof. apply learned_TAGS_lookup. Qed.

(** ** Domain profiles *)

Section DomainProfiles.

Lemma obj_get_set (o : jsobj) k v k' :
  obj_get (obj_set o k v) k' = if String.eqb k k' then Some v else obj_get o k'.
Proof.
  induction o as [|[k0 v0] o IH]; simpl; [done|].
  destruct (String.eqb_spec k0 k) as [->|Hk0]; simpl.
  - by destruct (String.eqb k k').
  - rewrite IH.
    destruct (String.eqb_spec k0 k') as [->|]; [|done].
    by destruct (String.eqb_spec k k') as [->|].
Qed.

(** One count of the name [k] is one step of [counted_up] on the
    property [k], and leaves every other property. *)
Lemma obj_get_count_up (o : jsobj) k s :
  obj_get (count_up o k) s
  = if String.eqb k s then counted_up 1 s (obj_get o s) else obj_get o s.
Proof.
  unfold count_up.
  destruct (String.eqb_spec k s) as [->|Hne].
  - destruct (obj_get o s) as [[n|f ones]|] eqn:Hs.
    + rewrite obj_get_set, String.eqb_refl. done.
    + rewrite obj_get_set, String.eqb_refl. simpl. do 2 f_equal. lia.
    + simpl. destruct (String.eqb s "__proto__"); [done|].
      destruct (Object_prototype s);
        by rewrite obj_get_set, String.eqb_refl.
  - assert (Hkeep : forall v, obj_get (obj_set o k v) s = obj_get o s).
    { intros v. rewrite obj_get_set.
      by destruct (String.eqb_spec k s). }
    destruct (obj_get o k) as [[n|f ones]|]; rewrite ?Hkeep; try done.
    destruct (String.eqb k "__proto__"); [done|].
    destruct (Object_prototype k); by rewrite Hkeep.
Qed.

Lemma counted_up_step k s v :
  counted_up k s (counted_up 1 s v) = counted_up (S k) s v.
Proof.
  destruct k as [|k]; [done|].
  destruct v as [[n|f ones]|]; simpl.
  - do 2 f_equal. apply number_eq. rewrite !num_val.
    pose proof (number_range n). unfold clamp. lia.
  - do 2 f_equal. lia.
  - destruct (String.eqb s "__proto__"); [done|].
    destruct (Object_prototype s); simpl.
    + done.
    + do 2 f_equal. apply number_eq. rewrite !num_val. unfold clamp. lia.
Qed.

(** Step 3 counts every occurrence of a name in the input. *)
Lemma obj_get_foldl_count_tag tags :
  forall o s,
  obj_get (foldl count_tag o tags) s
  = counted_up (occurrences s tags) s (obj_get o s).
Proof.
  unfold occurrences.
  induction tags as [|t tags IH]; intros o s; simpl; [done|].
  rewrite IH. unfold count_tag. rewrite obj_get_count_up, filter_cons.
  destruct (String.eqb_spec (ToString t) s) as [Heq|Hne].
  - rewrite decide_True by done. simpl length. apply counted_up_step.
  - by rewrite decide_False.
Qed.

End DomainProfiles.

(** X3. A call of [learn] with valid tags and a non-empty domain counts,
    in the profile of the domain, every occurrence of a tag name in the
    input, a repeated tag counting each time. For a name that a plain
    object does not inherit the count goes up by the number of
    occurrences, from 0 for a new name or a new domain, and stops at
    2^53. A name of a function of [Object.prototype] that has no
    property yet gets the text of that function with one character 1
    for every occurrence, not a number; for [__proto__] nothing is
    stored; a property that holds such a text gets one more 1 per
    occurrence. *)
Theorem learn_counts_domain_occurrences (st : store) (tags : list jsval)
    (d : string) (now : clock) :
  store_wf st ->
  tags <> [] ->
  Forall valid_key tags ->
  d <> EmptyString ->
  exists r,
    DOMAIN_STATS (learned st tags (Some d) now) !! d = Some r /\
    domain r = d /\
    (forall s,
       obj_get (tagCounts r) s
       = counted_up (occurrences s tags) s (obj_get (profile st d) s)) /\
    (forall s,
       ordinary s -> numeric_at (profile st d) s ->
       numeric_at (tagCounts r) s /\
       tag_count (tagCounts r) s
       = Z.min (tag_count (profile st d) s + Z.of_nat (occurrences s tags))
               (2 ^ 53)).
Proof.
  intros Hwf Hne Hvalid Hd.
  exists (counted st tags d).
  assert (Htruthy : truthy (Some d) = true).
  { simpl. by destruct (String.eqb_spec d EmptyString). }
  assert (Hget : forall s,
    obj_get (tagCounts (counted st tags d)) s
    = counted_up (occurrences s tags) s (obj_get (profile st d) s)).
  { intros s. unfold counted, profile. cbn [tagCounts].
    rewrite obj_get_foldl_count_tag.
    by destruct (DOMAIN_STATS st !! d). }
  split; [|split; [|split]].
  - rewrite learned_DOMAIN_STATS by done.
    rewrite (bool_decide_eq_true_2 _ (conj Hne Hvalid)), Htruthy.
    apply lookup_insert_eq.
  - by apply counted_domain.
  - exact Hget.
  - intros s [Hproto Hs] Hnum. unfold numeric_at, tag_count in *.
    rewrite Hget.
    assert (String.eqb s "__proto__" = false) as Hs'
      by by destruct (String.eqb_spec s "__proto__").
    destruct (occurrences s tags) as [|k] eqn:Hocc; simpl.
    + destruct (obj_get (profile st d) s) as [[n|f ones]|]; [|done|].
      * split; [done|]. pose proof (number_range n). lia.
      * split; [done|]. lia.
    + destruct (obj_get (profile st d) s) as [[n|f ones]|]; [|done|].
      * split; [done|]. rewrite num_val. pose proof (number_range n).
        unfold clamp. lia.
      * rewrite Hs', Hproto. split; [done|]. rewrite num_val.
        unfold clamp. lia.
Qed.

Lemma learn_counts_domain_occurrences_witness :
  exists r,
    DOMAIN_STATS (learned empty_store (tagsOf ["a"; "toString"; "a"])
                          (Some "ah.nl") ticking) !! "ah.nl" = Some r /\
    obj_get (tagCounts r) "a" = Some (Count (num 2)) /\
    obj_get (tagCounts r) "toString" = Some (FunctionText FtoString 0).
Proof.
  destruct (learn_counts_domain_occurrences
              empty_store (tagsOf ["a"; "toString"; "a"]) "ah.nl" ticking)
    as (r & Hr & _ & Hcount & _).
  - apply empty_store_wf.
  - discriminate.
  - apply tagsOf_valid.
  - discriminate.
  - exists r. split; [exact Hr|]. rewrite !Hcount.
    split; vm_compute; reflexivity.
Defined.

(** X4. A call of [learn] changes no domain profile but the one of its own
    domain, and that one only when the domain is a non-empty string and
    the tag list is non-empty and valid: without a domain, with the empty
    string, with no tags or with a refused tag every profile stays. *)
Theorem learn_touches_own_domain_only (st : store) (tags : list jsval)
    (dom : option string) (now : clock) (d : string) :
  store_wf st ->
  (dom = Some d /\ d <> EmptyString /\ tags <> [] /\ Forall valid_key tags) \/
  DOMAIN_STATS (learned st tags dom now) !! d = DOMAIN_STATS st !! d.
Proof.
  intros Hwf. rewrite learned_DOMAIN_STATS by done.
  destruct dom as [d'|]; [|by right].
  destruct (decide (tags <> [] /\ Forall valid_key tags)) as [Hcase|Hcase].
  - rewrite (bool_decide_eq_true_2 _ Hcase). unfold truthy.
    destruct (String.eqb_spec d' EmptyString) as [->|Hd']; cbn [andb negb];
      [by right|].
    destruct (decide (d' = d)) as [->|Hne].
    + left. by destruct Hcase.
    + right. by rewrite lookup_insert_ne.
  - rewrite (bool_decide_eq_false_2 _ Hcase). by right.
Qed.

Lemma learn_touches_own_domain_only_witness :
  DOMAIN_STATS (learned (learned empty_store (tagsOf ["a"; "b"]) (Some "ah.nl") ticking)
                        (tagsOf ["a"; "c"]) (Some "smulweb.nl") ticking) !! "ah.nl"
  = DOMAIN_STATS (learned empty_store (tagsOf ["a"; "b"]) (Some "ah.nl") ticking)
      !! "ah.nl".
Proof.
  destruct (learn_touches_own_domain_only
              (learned empty_store (tagsOf ["a"; "b"]) (Some "ah.nl") ticking)
              (tagsOf ["a"; "c"]) (Some "smulweb.nl") ticking "ah.nl")
    as [(Heq & _)|Hsame].
  - apply learned_wf, empty_store_wf.
  - discriminate.
  - exact Hsame.
Defined.

(** ** Invariants of the store *)

Section Invariants.

Lemma foldl_insert_Forall {K V} `{Countable K} (key : V -> K) (P : V -> Prop)
    (rs : list V) (m : gmap K V) :
  (forall k r, m !! k = Some r -> P r) ->
  Forall P rs ->
  forall k r, foldl (fun m r => <[key r := r]> m) m rs !! k = Some r -> P r.
Proof.
  intros Hm Hrs. revert m Hm.
  induction Hrs as [|r0 rs Hr0 _ IH]; intros m Hm; simpl; [done|].
  apply IH. intros k r.
  destruct (decide (key r0 = k)) as [<-|Hne].
  - rewrite lookup_insert_eq. by intros [= <-].
  - rewrite lookup_insert_ne by done. apply Hm.
Qed.

Lemma obj_get_elem (o : jsobj) k v :
  obj_get o k = Some v -> exists k', (k', v) ∈ o.
Proof.
  induction o as [|[k0 v0] o IH]; simpl; [done|].
  destruct (String.eqb k0 k).
  - intros [= <-]. exists k0. left.
  - intros [k' Hk']%IH. exists k'. by right.
Qed.

Lemma obj_set_positive (o : jsobj) k v :
  Forall (fun e => tally_positive e.2) o -> tally_positive v ->
  Forall (fun e => tally_positive e.2) (obj_set o k v).
Proof.
  intros Ho Hv. induction Ho as [|[k0 v0] o Hv0 Ho IH]; simpl.
  - by repeat constructor.
  - destruct (String.eqb k0 k); by constructor.
Qed.

Lemma Number_inc_positive (n : number) : 1 <= n -> 1 <= Number_inc n.
Proof. intros Hn. rewrite Number_inc_val. lia. Qed.

Lemma count_tag_positive (o : jsobj) t :
  Forall (fun e => tally_positive e.2) o ->
  Forall (fun e => tally_positive e.2) (count_tag o t).
Proof.
  intros Ho. unfold count_tag, count_up.
  destruct (obj_get o (ToString t)) as [[n|f ones]|] eqn:Hv.
  - apply obj_set_positive; [done|]. simpl.
    apply obj_get_elem in Hv as [k' Hin].
    pose proof (proj1 (Forall_forall _ _) Ho _ Hin) as Hn. simpl in Hn.
    by apply Number_inc_positive.
  - by apply obj_set_positive.
  - destruct (String.eqb (ToString t) "__proto__"); [done|].
    destruct (Object_prototype (ToString t)); by apply obj_set_positive.
Qed.

Lemma counted_positive st tags d :
  counts_positive st ->
  Forall (fun e => tally_positive e.2) (tagCounts (counted st tags d)).
Proof.
  intros [_ Hdom]. unfold counted.
  assert (Hold : Forall (fun e => tally_positive e.2)
            (tagCounts (default {| domain := d; tagCounts := [] |}
                                (DOMAIN_STATS st !! d)))).
  { destruct (DOMAIN_STATS st !! d) as [r|] eqn:Hr; simpl; [|constructor].
    by eapply Hdom. }
  cbn [tagCounts]. revert Hold.
  generalize (tagCounts (default {| domain := d; tagCounts := [] |}
                                 (DOMAIN_STATS st !! d))).
  induction tags as [|t tags IH]; intros o Ho; simpl; [done|].
  by apply IH, count_tag_positive.
Qed.

Lemma incremented_positive st now k :
  counts_positive st -> 1 <= count (incremented st now k).
Proof.
  intros [Hstat _]. unfold incremented.
  destruct (TAG_STATS st !! k) as [r|] eqn:Hr; cbn [count default].
  - apply Number_inc_positive. by eapply Hstat.
  - rewrite Number_inc_val. simpl. lia.
Qed.

(** [learn] keeps every counter at 1 or more. *)
Lemma learned_counts_positive st tags dom now :
  counts_positive st -> counts_positive (learned st tags dom now).
Proof.
  intros Hpos. split.
  - unfold learned, tx_complete.
    rewrite TAG_STATS_foldl_put, learned_stat_puts.
    apply foldl_insert_Forall; [apply Hpos|].
    case_bool_decide; [|constructor].
    apply indexed_puts_Forall. intros j k. by apply incremented_positive.
  - unfold learned, tx_complete.
    rewrite DOMAIN_STATS_foldl_put, learned_domain_puts.
    apply (foldl_insert_Forall domain
             (fun r => Forall (fun e => tally_positive e.2) (tagCounts r)));
      [apply Hpos|].
    destruct dom as [d|]; [|constructor].
    destruct (_ && _); [|constructor].
    constructor; [|constructor]. by apply counted_positive.
Qed.

Lemma learn_all_invariants st calls :
  store_wf st -> counts_positive st ->
  store_wf (learn_all st calls) /\ counts_positive (learn_all st calls).
Proof.
  unfold learn_all. revert st.
  induction calls as [|c calls IH]; intros st Hwf Hpos; simpl; [done|].
  apply IH; [by apply learned_wf|by apply learned_counts_positive].
Qed.

End Invariants.

(** X5. Whatever calls of [learn] were made on a store that started
    empty, with whatever clocks, every record sits under the value of
    its key path, so there is one record per pair key, and every pair
    count and every tag count of a domain that is a number is at least
    1: a counter at 0 is never stored. *)
Theorem learn_history_keeps_counts_positive
    (calls : list (list jsval * option string * clock)) :
  store_wf (learn_all empty_store calls) /\
  counts_positive (learn_all empty_store calls).
Proof.
  apply learn_all_invariants; [apply empty_store_wf|].
  split; intros k r; simpl; by rewrite lookup_empty.
Qed.

(** X6. A call of [learn] that is rejected for a value the store refuses
    as a key is not undone: the tags in front of that value are registered
    all the same, while no pair counter and no domain profile is written. *)
Theorem learn_rejected_call_still_registers (st : store) (tags : list jsval)
    (dom : option string) (now : clock) :
  Exists (fun t => ~ valid_key t) tags ->
  promise (learn (Opened st) tags dom) = Rejected DataError /\
  Forall (fun k => is_Some (TAGS (learned st tags dom now) !! k))
         (reached_keys tags) /\
  TAG_STATS (learned st tags dom now) = TAG_STATS st /\
  DOMAIN_STATS (learned st tags dom now) = DOMAIN_STATS st.
Proof.
  intros Hex.
  assert (Hcase : ~ (tags <> [] /\ Forall valid_key tags)).
  { intros [_ Hvalid]. apply Exists_exists in Hex as (t & Ht & Hbad).
    apply Hbad. by apply (proj1 (Forall_forall _ _) Hvalid). }
  split; [by apply learn_invalid_promise|]. split; [|split].
  - apply Forall_forall. intros k Hk. by apply learned_tag_registered.
  - by apply learned_TAG_STATS_invalid.
  - unfold learned, tx_complete.
    rewrite DOMAIN_STATS_foldl_put, learned_domain_puts.
    rewrite (bool_decide_eq_false_2 _ Hcase). by destruct dom.
Qed.

Lemma learn_rejected_call_still_registers_witness :
  promise (learn (Opened empty_store) [JStr "a"; JNull; JStr "b"] (Some "ah.nl"))
  = Rejected DataError /\
  Forall (fun k => is_Some (TAGS (learned empty_store [JStr "a"; JNull; JStr "b"]
                                          (Some "ah.nl") ticking) !! k))
         [KStr "a"].
Proof.
  destruct (learn_rejected_call_still_registers
              empty_store [JStr "a"; JNull; JStr "b"] (Some "ah.nl") ticking)
    as (Hp & Hreg & _).
  - apply Exists_cons_tl, Exists_cons_hd. by intros [k Hk].
  - split; [exact Hp|exact Hreg].
Defined.

(** ** The pair key of two valid keys *)

(** X7. The pair key of two tags does not depend on the order in which
    they are given, for strings and numbers alike. *)
Theorem pair_key_order_independent (x y : jsval) :
  valid_key x -> valid_key y -> _getPairKey x y = _getPairKey y x.
Proof.
  intros Hx Hy. rewrite !_getPairKey_valid by done.
  destruct (String.ltb (ToString x) (ToString y)) eqn:Hxy,
           (String.ltb (ToString y) (ToString x)) eqn:Hyx; try reflexivity.
  - apply ltb_asym in Hxy. congruence.
  - by rewrite (ltb_total _ _ Hxy Hyx).
Qed.

Lemma pair_key_order_independent_witness :
  _getPairKey (JNum (num 10)) (JStr "9") = _getPairKey (JStr "9") (JNum (num 10)).
Proof.
  apply (pair_key_order_independent (JNum (num 10)) (JStr "9")); by eexists.
Defined.

(** X8. For two tag names that hold no underscore, splitting their pair
    key at the underscores, as [predict] does, gives back exactly the two
    names, the smaller one first. *)
Theorem pair_key_split_round_trip (a b : string) :
  free_of "_" a = true -> free_of "_" b = true ->
  let parts := String_split "_" (_getPairKey (JStr a) (JStr b)) in
  length parts = 2%nat /\
  (Array_at parts 0, Array_at parts 1)
  = if String.ltb b a then (JStr b, JStr a) else (JStr a, JStr b).
Proof.
  intros Ha Hb parts. unfold parts.
  rewrite split_pair_key_without_underscore by done.
  by destruct (String.ltb b a).
Qed.

Lemma pair_key_split_round_trip_witness :
  (Array_at (String_split "_" (_getPairKey (JStr "tomaat") (JStr "pasta"))) 0,
   Array_at (String_split "_" (_getPairKey (JStr "tomaat") (JStr "pasta"))) 1)
  = (JStr "pasta", JStr "tomaat").
Proof.
  apply (pair_key_split_round_trip "tomaat" "pasta"); reflexivity.
Defined.

(** X9. Among tag names that hold no underscore the pair key is unique:
    two pairs with the same key are the same unordered pair. *)
Theorem pair_key_unique_without_underscore (a b c d : string) :
  free_of "_" a = true -> free_of "_" b = true ->
  free_of "_" c = true -> free_of "_" d = true ->
  _getPairKey (JStr a) (JStr b) = _getPairKey (JStr c) (JStr d) ->
  (a = c /\ b = d) \/ (a = d /\ b = c).
Proof.
  intros Ha Hb Hc Hd Hkey.
  pose proof (split_pair_key_without_underscore a b Ha Hb) as Hab.
  pose proof (split_pair_key_without_underscore c d Hc Hd) as Hcd.
  rewrite Hkey, Hcd in Hab.
  destruct (String.ltb d c), (String.ltb b a); inversion Hab; subst; tauto.
Qed.

Lemma pair_key_unique_without_underscore_witness :
  ("pasta" = "tomaat" /\ "tomaat" = "pasta") \/
  ("pasta" = "pasta" /\ "tomaat" = "tomaat").
Proof.
  apply (pair_key_unique_without_underscore "pasta" "tomaat" "tomaat" "pasta");
    reflexivity.
Defined.

(** ** What [predict] returns *)

Section PredictFacts.

Context `{Engine}.



Lemma getAll_empty : getAll ∅ = [].
Proof. unfold getAll. by rewrite map_to_list_empty. Qed.

Lemma delete_all_nil (l : list jsval) : foldl Map_delete [] l = [].
Proof. induction l as [|t l IH]; simpl; [done|]. exact IH. Qed.

Lemma Object_entries_elem (o : jsobj) e : e ∈ Object_entries o -> e ∈ o.
Proof.
  unfold Object_entries. rewrite elem_of_app. intros [He|He].
  - apply list_elem_of_fmap in He as ([n e'] & -> & Hin).
    rewrite Array_sort_perm in Hin. unfold index_entries in Hin.
    apply list_elem_of_omap in Hin as (e0 & He0 & Hsome).
    destruct (array_index e0.1); [|done]. by inversion Hsome; subst.
  - unfold named_entries in He. by apply list_elem_of_filter in He as [_ ?].
Qed.

Lemma getAll_elem (m : gmap string TagStat) stat :
  stat ∈ getAll m -> exists k, m !! k = Some stat.
Proof.
  unfold getAll. intros ([k r] & -> & Hin)%list_elem_of_fmap.
  rewrite merge_sort_Permutation in Hin.
  exists k. by apply elem_of_map_to_list.
Qed.

Lemma getAll_lookup (m : gmap string TagStat) k stat :
  m !! k = Some stat -> stat ∈ getAll m.
Proof.
  intros Hk. unfold getAll. apply list_elem_of_fmap. exists (k, stat).
  split; [done|]. rewrite merge_sort_Permutation.
  by apply elem_of_map_to_list.
Qed.

Lemma foldl_keys_invariant {A} (Q : jsval -> Prop) (step : Map -> A -> Map)
    (l : list A) (P : A -> Prop) :
  (forall m a, P a -> Forall Q m.*1 -> Forall Q (step m a).*1) ->
  Forall P l ->
  forall m, Forall Q m.*1 -> Forall Q (foldl step m l).*1.
Proof.
  intros Hstep Hl. induction Hl as [|a l Ha _ IH]; intros m Hm; simpl; [done|].
  by apply IH, Hstep.
Qed.

Lemma Map_set_keys_Forall (Q : jsval -> Prop) (m : Map) k v :
  Q k -> Forall Q m.*1 -> Forall Q (Map_set m k v).*1.
Proof.
  intros Hk Hm. apply Forall_forall. intros x [->|Hx]%Map_set_keys; [done|].
  by apply (proj1 (Forall_forall _ _) Hm).
Qed.

Lemma domain_scores_sources st ct dom :
  Forall (fun x => from_domain st dom x \/ from_pair st ct x)
         (domain_scores st dom []).*1.
Proof.
  unfold domain_scores. destruct dom as [d|]; [|constructor].
  destruct (truthy (Some d)); [|constructor].
  destruct (DOMAIN_STATS st !! d) as [r|] eqn:Hr; [|constructor].
  apply (foldl_keys_invariant _ _ _ (fun e => e ∈ tagCounts r)).
  - intros m [s n] Hin Hm. apply Map_set_keys_Forall; [|done].
    left. by exists d, r, s, n.
  - apply Forall_forall. intros e He.
    apply subseteq_take in He. rewrite sort_by_count_perm in He.
    by apply Object_entries_elem.
  - constructor.
Qed.

Lemma association_scores_sources st ct dom (m : Map) :
  Forall (fun x => from_domain st dom x \/ from_pair st ct x) m.*1 ->
  Forall (fun x => from_domain st dom x \/ from_pair st ct x)
         (association_scores st ct m).*1.
Proof.
  intros Hm. unfold association_scores. case_bool_decide; [|done].
  apply (foldl_keys_invariant _ _ _
           (fun stat => exists k, TAG_STATS st !! k = Some stat)); [| |done].
  - intros m' stat [k Hk] Hm'. unfold association_step.
    destruct (Array_includes ct (Array_at (String_split "_" (pair stat)) 0))
      eqn:HA;
    destruct (Array_includes ct (Array_at (String_split "_" (pair stat)) 1))
      eqn:HB; simpl; try done.
    + apply Map_set_keys_Forall; [|done]. right. exists k, stat.
      split; [done|]. left. split; [done|].
      by apply bool_decide_eq_true in HA.
    + apply Map_set_keys_Forall; [|done]. right. exists k, stat.
      split; [done|]. right. split; [done|].
      by apply bool_decide_eq_true in HB.
  - apply Forall_forall. intros stat Hstat. by apply getAll_elem.
Qed.

Lemma predict_sources st ct dom :
  exists l,
    predict (Opened st) ct dom = Resolved l /\
    Forall (fun x => from_domain st dom x \/ from_pair st ct x) l.
Proof.
  eexists. split; [apply predict_opened|].
  apply Forall_forall. intros x Hx.
  apply subseteq_take in Hx. unfold Map_entries in Hx.
  change (map fst ?l) with (l.*1) in Hx. rewrite Array_sort_perm in Hx.
  apply delete_all_keys in Hx as [Hx _].
  pose proof (association_scores_sources st ct dom _
                (domain_scores_sources st ct dom)) as Hall.
  by apply (proj1 (Forall_forall _ _) Hall).
Qed.

(** *** The ranking of a profile of numbers *)







End PredictFacts.

(** X10. When neither signal applies, [predict] returns the empty
    sequence: there are no current tags or no stored pairs, and the domain
    is null, empty or without a profile. *)
Theorem predict_without_signal_is_empty `{Engine} (st : store)
    (currentTags : list jsval) (dom : option string) :
  currentTags = [] \/ TAG_STATS st = ∅ ->
  truthy dom = false \/ (exists d, dom = Some d /\ DOMAIN_STATS st !! d = None) ->
  predict (Opened st) currentTags dom = Resolved [].
Proof.
  intros Hassoc Hdom. rewrite predict_opened.
  assert (domain_scores st dom [] = []) as ->.
  { unfold domain_scores. destruct Hdom as [Hf|(d & Hsome & Hd)].
    - destruct dom; [by rewrite Hf|done].
    - subst dom. rewrite Hd. by destruct (truthy (Some d)). }
  assert (association_scores st currentTags [] = []) as ->.
  { unfold association_scores. destruct Hassoc as [-> | ->]; [done|].
    rewrite getAll_empty. by case_bool_decide. }
  by rewrite delete_all_nil.
Qed.

Lemma predict_without_signal_is_empty_witness :
  predict (Opened empty_store) (tagsOf ["pasta"]) (Some "ah.nl") = Resolved [].
Proof.
  apply (predict_without_signal_is_empty empty_store (tagsOf ["pasta"]) (Some "ah.nl")).
  - by right.
  - right. exists "ah.nl". split; [done|]. apply lookup_empty.
Defined.



(** ** Where suggestions come from *)

(** X14. [predict] suggests nothing out of thin air: every suggestion is a
    tag name of the profile of the given domain, or one side of a stored
    pair whose other side, as read back from the key, is one of the
    current tags. *)
Theorem predict_suggestions_have_a_source `{Engine} (st : store)
    (currentTags : list jsval) (dom : option string) :
  exists l,
    predict (Opened st) currentTags dom = Resolved l /\
    Forall (fun x => from_domain st dom x \/ from_pair st currentTags x) l.
Proof. apply predict_sources. Qed.
(** ** Parsing tags out of a text *)

Section ParseTags.

Lemma word_run_all s : all_tag_chars (word_run s) = true.
Proof.
  induction s as [|c s IH]; simpl; [done|].
  destruct (is_tag_char c) eqn:Hc; simpl; [|done]. by rewrite Hc.
Qed.

Lemma hash_tag_name s name : hash_tag s = Some name -> tag_name name.
Proof.
  destruct s as [|c s]; simpl; [done|].
  destruct (Ascii.eqb c "#"); [|done].
  pose proof (word_run_all s) as Hall.
  destruct (word_run s) as [|c' w]; [done|].
  intros [= <-]. by split.
Qed.

Lemma tag_here_name b s len name :
  tag_here b s = Some (len, name) -> tag_name name.
Proof.
  unfold tag_here.
  destruct (if b then hash_tag s else None) as [n|] eqn:Hstart.
  - intros [= _ <-]. destruct b; [|done]. by eapply hash_tag_name.
  - destruct s as [|c s]; [done|]. destruct (is_space c); [|done].
    destruct (hash_tag s) as [n|] eqn:Hn; [|done].
    intros [= _ <-]. by eapply hash_tag_name.
Qed.

Lemma scan_tags_names s : forall b k, Forall tag_name (scan_tags b k s).
Proof.
  induction s as [|c s IH]; intros b k; simpl; [constructor|].
  destruct k as [|k]; [|apply IH].
  destruct (tag_here b (String c s)) as [[len name]|] eqn:Hhere; [|apply IH].
  constructor; [by eapply tag_here_name|apply IH].
Qed.

(** A run of tag characters ends where another character follows. *)
Lemma word_run_app name rest :
  all_tag_chars name = true ->
  word_run rest = EmptyString ->
  word_run (name +:+ rest) = name.
Proof.
  intros Hall Hrest. induction name as [|c name IH]; simpl in *; [done|].
  apply andb_true_iff in Hall as [-> Hall]. by rewrite IH.
Qed.

Lemma hash_tag_app name rest :
  tag_name name -> word_run rest = EmptyString ->
  hash_tag (String "#" (name +:+ rest)) = Some name.
Proof.
  intros [Hne Hall] Hrest. simpl. rewrite word_run_app by done.
  by destruct name.
Qed.

(** Characters inside a match are passed over. *)
Lemma scan_tags_skip u s : forall b,
  u <> EmptyString ->
  scan_tags b (String.length u) (u +:+ s) = scan_tags false 0 s.
Proof.
  induction u as [|c u IH]; intros b Hu; [done|]. simpl.
  destruct u as [|c' u]; [done|]. by apply IH.
Qed.

Lemma scan_tags_at_start name rest :
  tag_name name -> word_run rest = EmptyString ->
  scan_tags true 0 (String "#" (name +:+ rest)) = name :: scan_tags false 0 rest.
Proof.
  intros Hname Hrest.
  cbn [scan_tags]. unfold tag_here. rewrite hash_tag_app by done.
  replace (S (String.length name) - 1)%nat with (String.length name) by lia.
  f_equal. apply scan_tags_skip. by destruct Hname.
Qed.

Lemma scan_tags_after_space b name rest :
  tag_name name -> word_run rest = EmptyString ->
  scan_tags b 0 (String " " (String "#" (name +:+ rest)))
  = name :: scan_tags false 0 rest.
Proof.
  intros Hname Hrest.
  cbn [scan_tags]. unfold tag_here.
  assert (hash_tag (String " " (String "#" (name +:+ rest))) = None) as ->
    by done.
  assert ((if b then None else None) = @None string) as -> by by destruct b.
  change (is_space " ") with true. cbn iota.
  rewrite hash_tag_app by done.
  replace (S (S (String.length name)) - 1)%nat with (S (String.length name))
    by lia.
  f_equal.
  change (scan_tags false (S (String.length name)) (String "#" (name +:+ rest)))
    with (scan_tags false (String.length name) (name +:+ rest)).
  apply scan_tags_skip. by destruct Hname.
Qed.

End ParseTags.

(** X15. Every tag [parseTags] finds in a text is a non-empty run of
    letters, digits, underscores and hyphens: it holds no hash, no white
    space and nothing else, whatever the text. *)
Theorem parseTags_yields_tag_names (text : string) :
  Forall tag_name (parseTags text).
Proof. apply scan_tags_names. Qed.

Section StringAppend.

Lemma append_cons c s t : String c s +:+ t = String c (s +:+ t).
Proof. reflexivity. Qed.

Lemma append_nil_l s : EmptyString +:+ s = s.
Proof. reflexivity. Qed.

Lemma append_nil_r s : s +:+ EmptyString = s.
Proof. induction s as [|c s IH]; [done|]. by rewrite append_cons, IH. Qed.

Lemma append_assoc s t u : (s +:+ t) +:+ u = s +:+ (t +:+ u).
Proof. induction s as [|c s IH]; [done|]. by rewrite !append_cons, IH. Qed.

Lemma length_append s t :
  String.length (s +:+ t) = (String.length s + String.length t)%nat.
Proof. induction s as [|c s IH]; [done|]. rewrite append_cons. simpl. by rewrite IH. Qed.

End StringAppend.

Section TagsLine.

Lemma more_tags_stops names : word_run (more_tags names) = EmptyString.
Proof. by destruct names. Qed.

Lemma tags_line_more name rest :
  tags_line (tagsOf (name :: rest)) = String "#" (name +:+ more_tags rest).
Proof.
  unfold tags_line, tagsOf. revert name.
  induction rest as [|name' rest IH]; intros name.
  - simpl. by rewrite append_nil_r.
  - specialize (IH name').
    change (Array_join " " (map (fun t => JStr ("#" +:+ ToString t))
                                (map JStr (name :: name' :: rest))))
      with (("#" +:+ name) +:+ " " +:+
            Array_join " " (map (fun t => JStr ("#" +:+ ToString t))
                                (map JStr (name' :: rest)))).
    rewrite IH. reflexivity.
Qed.

Lemma scan_more_tags names :
  Forall tag_name names -> scan_tags false 0 (more_tags names) = names.
Proof.
  induction 1 as [|name rest Hname _ IH]; [done|].
  cbn [more_tags].
  rewrite scan_tags_after_space by (done || apply more_tags_stops).
  by rewrite IH.
Qed.

End TagsLine.

(** X16. The line of tags a card shows, each name behind a hash and one
    space between them, parses back to exactly the tags it was made of, in
    the same order. *)
Theorem parseTags_reads_tags_line (names : list string) :
  Forall tag_name names ->
  parseTags (tags_line (tagsOf names)) = names.
Proof.
  intros Hnames. destruct Hnames as [|name rest Hname Hrest]; [done|].
  rewrite tags_line_more. unfold parseTags.
  rewrite scan_tags_at_start by (done || apply more_tags_stops).
  by rewrite scan_more_tags.
Qed.

Lemma parseTags_reads_tags_line_witness :
  parseTags (tags_line (tagsOf ["pasta"; "d_e"; "x-y"])) = ["pasta"; "d_e"; "x-y"].
Proof.
  apply (parseTags_reads_tags_line ["pasta"; "d_e"; "x-y"]).
  repeat constructor; discriminate.
Defined.

(** ** Text added behind the tags *)

Section AppendStop.

(** [t] begins with a character that neither continues a tag nor starts
    one. *)
Variable t : string.
Hypothesis t_stops : word_run t = EmptyString.
Hypothesis t_no_hash : hash_tag t = None.

Lemma word_run_app_stop s : word_run (s +:+ t) = word_run s.
Proof.
  induction s as [|c s IH]; [by rewrite append_nil_l|].
  rewrite append_cons. simpl. by rewrite IH.
Qed.

Lemma hash_tag_app_stop s :
  s <> EmptyString -> hash_tag (s +:+ t) = hash_tag s.
Proof.
  destruct s as [|c s]; [done|]. intros _.
  rewrite append_cons. simpl. by rewrite word_run_app_stop.
Qed.

Lemma hash_tag_app_stop' s : hash_tag (s +:+ t) = hash_tag s.
Proof.
  destruct s as [|c s]; [by rewrite append_nil_l|].
  by apply hash_tag_app_stop.
Qed.

Lemma tag_here_app_stop b s :
  s <> EmptyString -> tag_here b (s +:+ t) = tag_here b s.
Proof.
  intros Hs. unfold tag_here. rewrite hash_tag_app_stop by done.
  destruct s as [|c s]; [done|]. rewrite append_cons.
  by rewrite hash_tag_app_stop'.
Qed.

Lemma word_run_length s : (String.length (word_run s) <= String.length s)%nat.
Proof.
  induction s as [|c s IH]; simpl; [lia|].
  destruct (is_tag_char c); simpl; lia.
Qed.

Lemma hash_tag_length s name :
  hash_tag s = Some name -> (S (String.length name) <= String.length s)%nat.
Proof.
  destruct s as [|c s]; simpl; [done|].
  destruct (Ascii.eqb c "#"); [|done].
  pose proof (word_run_length s).
  destruct (word_run s); [done|]. intros [= <-]. simpl in *. lia.
Qed.

Lemma tag_here_length b s len name :
  tag_here b s = Some (len, name) -> (1 <= len <= String.length s)%nat.
Proof.
  unfold tag_here.
  destruct (if b then hash_tag s else None) as [n|] eqn:Hstart.
  - intros [= <- _]. destruct b; [|done].
    apply hash_tag_length in Hstart. lia.
  - destruct s as [|c s]; [done|]. destruct (is_space c); [|done].
    destruct (hash_tag s) as [n|] eqn:Hn; [|done].
    intros [= <- _]. apply hash_tag_length in Hn. simpl. lia.
Qed.

Lemma scan_tags_flag b : scan_tags b 0 t = scan_tags false 0 t.
Proof.
  destruct t as [|c t'] eqn:Ht; [done|].
  cbn [scan_tags]. unfold tag_here. rewrite t_no_hash.
  by destruct b.
Qed.

(** The tags of a text stay when such a [t] is put behind it, and the
    tags of [t] follow. *)
Lemma scan_tags_app_stop s : forall b k,
  (k <= String.length s)%nat ->
  scan_tags b k (s +:+ t) = scan_tags b k s ++ scan_tags false 0 t.
Proof.
  induction s as [|c s IH]; intros b k Hk.
  - simpl in Hk. assert (k = 0%nat) as -> by lia.
    rewrite append_nil_l. simpl. apply scan_tags_flag.
  - rewrite append_cons. destruct k as [|k].
    + cbn [scan_tags].
      rewrite <- append_cons, tag_here_app_stop by done.
      destruct (tag_here b (String c s)) as [[len name]|] eqn:Hhere.
      * apply tag_here_length in Hhere. simpl in Hhere.
        rewrite IH by lia. done.
      * by rewrite IH by lia.
    + cbn [scan_tags]. simpl in Hk. by rewrite IH by lia.
Qed.

End AppendStop.

Section Accept.

Lemma ends_with_space_split val :
  ends_with_space val = true -> exists v, val = v +:+ " ".
Proof.
  induction val as [|c val IH]; [done|].
  destruct val as [|c' val].
  - simpl. intros ->%Ascii.eqb_eq. by exists EmptyString.
  - intros H. destruct (IH H) as [v Hv]. exists (String c v).
    by rewrite append_cons, <- Hv.
Qed.

Lemma scan_tags_space_tag name :
  tag_name name ->
  scan_tags false 0 (String " " (String "#" (name +:+ " "))) = [name].
Proof. intros Hname. by rewrite scan_tags_after_space. Qed.

End Accept.

(** X17. Accepting a suggestion that is a tag name (a non-empty run of
    letters, digits, underscores and hyphens) adds that tag, and only that
    tag, to the tags of the editor text: parsing the new value of the input
    gives the tags parsed before, followed by the accepted tag, whatever
    the text held. A suggestion need not be a tag name: after
    [learn(['_x','y'])] the call [predict(['x'])] suggests the empty
    string, and accepting the empty suggestion puts a lone hash behind the
    text and adds no tag. *)
Theorem acceptSuggestion_adds_the_tag `{Engine} (val : string) (tag : jsval) :
  (tag_name (ToString tag) ->
   parseTags (acceptSuggestion val tag) = parseTags val ++ [ToString tag]) /\
  parseTags (acceptSuggestion val (JStr EmptyString)) = parseTags val /\
  (forall now : clock,
     predict (Opened (learned empty_store (tagsOf ["_x"; "y"]) None now))
             [JStr "x"] None
     = Resolved [JStr EmptyString]).
Proof.
  split; [|split].
  - intros Hname. unfold acceptSuggestion, parseTags.
    set (name := ToString tag) in *.
    set (t := String " " (String "#" (name +:+ " "))).
    assert (Ht : forall s b, scan_tags b 0 (s +:+ t) = scan_tags b 0 s ++ [name]).
    { intros s b. rewrite (scan_tags_app_stop t) by (done || lia).
      unfold t. by rewrite scan_tags_space_tag. }
    destruct val as [|c val].
    + change (scan_tags true 0 (String "#" (name +:+ " "))
              = scan_tags true 0 EmptyString ++ [name]).
      by rewrite scan_tags_at_start.
    + change (0 <? String.length (String c val))%nat with true.
      destruct (ends_with_space (String c val)) eqn:Hends; cbn [andb negb].
      * destruct (ends_with_space_split _ Hends) as [v Hv]. rewrite Hv.
        rewrite append_nil_l, append_assoc.
        change (" " +:+ "#" +:+ name +:+ " ") with t.
        rewrite Ht.
        rewrite (scan_tags_app_stop " ") by (done || lia).
        by rewrite app_nil_r.
      * change (" " +:+ "#" +:+ name +:+ " ") with t. apply Ht.
  - unfold acceptSuggestion, parseTags.
    change (ToString (JStr EmptyString)) with EmptyString.
    destruct ((0 <? String.length val)%nat && negb (ends_with_space val)).
    + change (" " +:+ "#" +:+ EmptyString +:+ " ") with " # ".
      rewrite (scan_tags_app_stop " # ") by (done || lia).
      by rewrite app_nil_r.
    + rewrite append_nil_l.
      change ("#" +:+ EmptyString +:+ " ") with "# ".
      rewrite (scan_tags_app_stop "# ") by (done || lia).
      by rewrite app_nil_r.
  - intros now. reflexivity.
Qed.

Lemma acceptSuggestion_adds_the_tag_witness :
  parseTags (acceptSuggestion "lekker #pas" (JStr "pasta")) = ["pas"; "pasta"].
Proof.
  rewrite (proj1 (acceptSuggestion_adds_the_tag "lekker #pas" (JStr "pasta"))).
  - reflexivity.
  - split; [discriminate|reflexivity].
Defined.


(** ** Escaping *)

Section Escape.

Lemma escape_char_cases c :
  (is_special c = false /\ escape_char c = String c EmptyString) \/
  (is_special c = true /\
   (c = "&"%char /\ escape_char c = "&amp;" \/
    c = "<"%char /\ escape_char c = "&lt;" \/
    c = ">"%char /\ escape_char c = "&gt;" \/
    c = "034"%char /\ escape_char c = "&quot;" \/
    c = "'"%char /\ escape_char c = "&#039;")).
Proof.
  unfold is_special, escape_char.
  destruct (Ascii.eqb_spec c "&") as [->|]; [right; split; [done|]; tauto|].
  destruct (Ascii.eqb_spec c "<") as [->|]; [right; split; [done|]; tauto|].
  destruct (Ascii.eqb_spec c ">") as [->|]; [right; split; [done|]; tauto|].
  destruct (Ascii.eqb_spec c "034") as [->|]; [right; split; [done|]; tauto|].
  destruct (Ascii.eqb_spec c "'") as [->|]; [right; split; [done|]; tauto|].
  by left.
Qed.

Lemma escapeHtml_all s : escapeHtml (Some s) = escape_all s.
Proof. unfold escapeHtml. by destruct (String.eqb_spec s EmptyString) as [->|]. Qed.

Lemma free_of_app sep s t :
  free_of sep (s +:+ t) = free_of sep s && free_of sep t.
Proof.
  induction s as [|c s IH]; [done|]. rewrite append_cons. simpl.
  rewrite IH. by rewrite andb_assoc.
Qed.

Lemma escape_char_free c sep :
  sep = "<"%char \/ sep = ">"%char \/ sep = "034"%char \/ sep = "'"%char ->
  free_of sep (escape_char c) = true.
Proof.
  intros Hsep.
  destruct (escape_char_cases c) as [[Hplain ->]|[_ Hc]].
  - simpl. rewrite andb_true_r. apply negb_true_iff, Ascii.eqb_neq.
    intros ->. unfold is_special in Hplain.
    destruct Hsep as [-> | [-> | [-> | ->]]]; discriminate.
  - destruct Hc as [[_ ->]|[[_ ->]|[[_ ->]|[[_ ->]|[_ ->]]]]];
      destruct Hsep as [-> | [-> | [-> | ->]]]; reflexivity.
Qed.

Lemma escape_all_free s sep :
  sep = "<"%char \/ sep = ">"%char \/ sep = "034"%char \/ sep = "'"%char ->
  free_of sep (escape_all s) = true.
Proof.
  intros Hsep. induction s as [|c s IH]; [done|]. simpl.
  by rewrite free_of_app, escape_char_free, IH.
Qed.

(** The first character of an escaped text tells how it began. *)
Lemma escape_all_injective a : forall b, escape_all a = escape_all b -> a = b.
Proof.
  induction a as [|c a IH]; intros [|d b]; simpl.
  - done.
  - destruct (escape_char_cases d) as [[_ ->]|[_ Hd]]; [done|].
    by destruct Hd as [[_ ->]|[[_ ->]|[[_ ->]|[[_ ->]|[_ ->]]]]].
  - destruct (escape_char_cases c) as [[_ ->]|[_ Hc]]; [done|].
    by destruct Hc as [[_ ->]|[[_ ->]|[[_ ->]|[[_ ->]|[_ ->]]]]].
  - destruct (escape_char_cases c) as [[Hc ->]|[_ Hc]];
    destruct (escape_char_cases d) as [[Hd ->]|[_ Hd]].
    + rewrite !append_cons, !append_nil_l. intros [= -> Heq]. f_equal. by apply IH.
    + destruct Hd as [[_ ->]|[[_ ->]|[[_ ->]|[[_ ->]|[_ ->]]]]];
        rewrite !append_cons, !append_nil_l; intros [= -> _]; discriminate.
    + destruct Hc as [[_ ->]|[[_ ->]|[[_ ->]|[[_ ->]|[_ ->]]]]];
        rewrite !append_cons, !append_nil_l; intros [= <- _]; discriminate.
    + destruct Hc as [[-> ->]|[[-> ->]|[[-> ->]|[[-> ->]|[-> ->]]]]];
      destruct Hd as [[-> ->]|[[-> ->]|[[-> ->]|[[-> ->]|[-> ->]]]]];
        rewrite !append_cons, !append_nil_l; intros Heq;
        try discriminate Heq; f_equal; apply IH; by inversion Heq.
Qed.

End Escape.

(** X18. Whatever text goes in, the text [escapeHtml] returns holds none
    of the characters [<], [>], double quote and single quote: it cannot
    open a tag or close an attribute when it is put into the page. *)
Theorem escapeHtml_leaves_no_markup (text : option string) :
  free_of "<" (escapeHtml text) = true /\
  free_of ">" (escapeHtml text) = true /\
  free_of "034" (escapeHtml text) = true /\
  free_of "'" (escapeHtml text) = true.
Proof.
  destruct text as [s|]; [|done]. rewrite escapeHtml_all.
  repeat split; apply escape_all_free; tauto.
Qed.

(** X19. [escapeHtml] loses nothing: two texts that are escaped to the same
    string are the same text. *)
Theorem escapeHtml_injective (a b : string) :
  escapeHtml (Some a) = escapeHtml (Some b) -> a = b.
Proof. rewrite !escapeHtml_all. apply escape_all_injective. Qed.

Lemma escapeHtml_injective_witness : "a<b" = "a<b".
Proof. apply (escapeHtml_injective "a<b" "a<b"). reflexivity. Defined.

(** ** Tags in an escaped text *)

Section EscapedTags.

Lemma special_is_no_tag_char c :
  is_special c = true ->
  is_tag_char c = false /\ is_space c = false /\ Ascii.eqb c "#" = false.
Proof.
  intros Hc. destruct (escape_char_cases c) as [[Hplain _]|[_ Hcases]];
    [congruence|].
  by destruct Hcases as [[-> _]|[[-> _]|[[-> _]|[[-> _]|[-> _]]]]].
Qed.

(** An entity is passed without a match, whatever follows it. *)
Lemma scan_tags_entity b c rest :
  is_special c = true ->
  scan_tags b 0 (escape_char c +:+ rest) = scan_tags false 0 rest.
Proof.
  intros Hc. destruct (escape_char_cases c) as [[Hplain _]|[_ Hcases]];
    [congruence|].
  destruct Hcases as [[_ ->]|[[_ ->]|[[_ ->]|[[_ ->]|[_ ->]]]]];
    by destruct b.
Qed.

Lemma scan_tags_special b c rest :
  is_special c = true ->
  scan_tags b 0 (String c rest) = scan_tags false 0 rest.
Proof.
  intros (_ & Hspace & Hhash)%special_is_no_tag_char.
  cbn [scan_tags]. unfold tag_here. simpl. rewrite Hhash, Hspace.
  by destruct b.
Qed.

Lemma escape_plain c s :
  is_special c = false -> escape_all (String c s) = String c (escape_all s).
Proof.
  intros Hc. simpl.
  destruct (escape_char_cases c) as [[_ ->]|[Hs _]]; [done|congruence].
Qed.

Lemma word_run_escape s : word_run (escape_all s) = word_run s.
Proof.
  induction s as [|c s IH]; [done|].
  destruct (is_special c) eqn:Hc.
  - destruct (special_is_no_tag_char c Hc) as (Htag & _ & _).
    simpl. rewrite Htag.
    destruct (escape_char_cases c) as [[Hplain _]|[_ Hcases]]; [congruence|].
    by destruct Hcases as [[_ ->]|[[_ ->]|[[_ ->]|[[_ ->]|[_ ->]]]]].
  - rewrite escape_plain by done. simpl. by rewrite IH.
Qed.

Lemma hash_tag_escape s : hash_tag (escape_all s) = hash_tag s.
Proof.
  destruct s as [|c s]; [done|].
  destruct (is_special c) eqn:Hc.
  - destruct (special_is_no_tag_char c Hc) as (_ & _ & Hhash).
    simpl. rewrite Hhash.
    destruct (escape_char_cases c) as [[Hplain _]|[_ Hcases]]; [congruence|].
    by destruct Hcases as [[_ ->]|[[_ ->]|[[_ ->]|[[_ ->]|[_ ->]]]]].
  - rewrite escape_plain by done. simpl. by rewrite word_run_escape.
Qed.

Lemma tag_here_escape b c s :
  is_special c = false ->
  tag_here b (escape_all (String c s)) = tag_here b (String c s).
Proof.
  intros Hc. unfold tag_here. rewrite hash_tag_escape.
  rewrite escape_plain by done. by rewrite hash_tag_escape.
Qed.

Lemma word_run_plain s : plain_prefix (String.length (word_run s)) s.
Proof.
  induction s as [|c s IH]; simpl; [done|].
  destruct (is_tag_char c) eqn:Hc; simpl; [|done].
  split; [|done]. destruct (is_special c) eqn:Hs; [|done].
  apply special_is_no_tag_char in Hs as [Hs _]. congruence.
Qed.

Lemma hash_tag_plain s name :
  hash_tag s = Some name -> plain_prefix (S (String.length name)) s.
Proof.
  destruct s as [|c s]; simpl; [done|].
  destruct (Ascii.eqb_spec c "#") as [->|]; [|done].
  pose proof (word_run_plain s) as Hrun.
  destruct (word_run s) as [|c' w]; [done|]. intros [= <-]. by split.
Qed.

Lemma tag_here_plain b s len name :
  tag_here b s = Some (len, name) -> plain_prefix len s.
Proof.
  unfold tag_here.
  destruct (if b then hash_tag s else None) as [n|] eqn:Hstart.
  - intros [= <- _]. destruct b; [|done]. by apply hash_tag_plain.
  - destruct s as [|c s]; [done|]. destruct (is_space c) eqn:Hc; [|done].
    destruct (hash_tag s) as [n|] eqn:Hn; [|done].
    intros [= <- _]. split; [|by apply hash_tag_plain].
    destruct (is_special c) eqn:Hs; [|done].
    apply special_is_no_tag_char in Hs as (_ & Hs & _). congruence.
Qed.

Lemma scan_tags_escape s : forall b k,
  plain_prefix k s -> scan_tags b k (escape_all s) = scan_tags b k s.
Proof.
  induction s as [|c s IH]; intros b k Hk; [done|].
  destruct k as [|k].
  - destruct (is_special c) eqn:Hc.
    + change (escape_all (String c s)) with (escape_char c +:+ escape_all s).
      rewrite scan_tags_entity, scan_tags_special by done. by apply IH.
    + pose proof (tag_here_escape b c s Hc) as Hhere.
      rewrite escape_plain in * by done.
      cbn [scan_tags]. rewrite Hhere.
      destruct (tag_here b (String c s)) as [[len name]|] eqn:Hmatch.
      * f_equal. apply IH.
        apply tag_here_plain in Hmatch.
        destruct len as [|len]; [done|].
        replace (S len - 1)%nat with len by lia. by destruct Hmatch.
      * by apply IH.
  - destruct Hk as [Hc Hk]. rewrite escape_plain by done.
    cbn [scan_tags]. by apply IH.
Qed.

End EscapedTags.

(** X20. Escaping a text does not change its tags: the text the editor
    highlights, which is escaped first, holds exactly the tags [parseTags]
    finds in the text that was typed. *)
Theorem parseTags_of_escaped_text (text : string) :
  parseTags (escapeHtml (Some text)) = parseTags text.
Proof. rewrite escapeHtml_all. by apply scan_tags_escape. Qed.

(** ** The hash behind the colour *)

Section Gradient.

Lemma to_int32_range z : - 2 ^ 31 <= to_int32 z < 2 ^ 31.
Proof.
  unfold to_int32.
  pose proof (Z.mod_pos_bound (z + 2 ^ 31) (2 ^ 32) ltac:(lia)). lia.
Qed.

Lemma N_of_ascii_range c : 0 <= Z.of_N (N_of_ascii c) <= 255.
Proof.
  pose proof (N_ascii_bounded c). lia.
Qed.

Lemma hash_from_bound domain : forall hash,
  Z.abs (hash_from hash domain)
  <= Z.abs hash + Z.of_nat (String.length domain) * (2 ^ 31 + 255).
Proof.
  induction domain as [|c domain IH]; intros hash; simpl String.length.
  - simpl. lia.
  - cbn [hash_from]. etrans; [apply IH|].
    pose proof (to_int32_range (hash * 32)).
    pose proof (N_of_ascii_range c).
    unfold shift_left_5. lia.
Qed.

End Gradient.

(** X21. The hue [getGradientForDomain] computes for a domain is always
    between 0 and 359, the second hue of the gradient between 40 and 399,
    and the hash behind them never grows beyond the length of the domain
    times 2^31 + 255, far inside the range in which numbers are exact. *)
Theorem gradient_hue_in_range (domain : string) :
  0 <= hue domain <= 359 /\
  40 <= hue domain + 40 <= 399 /\
  Z.abs (hash_from 0 domain)
  <= Z.of_nat (String.length domain) * (2 ^ 31 + 255).
Proof.
  assert (Hhue : 0 <= hue domain <= 359).
  { unfold hue.
    pose proof (Z.rem_bound_abs (hash_from 0 domain) 360 ltac:(lia)).
    lia. }
  repeat split; try lia.
  pose proof (hash_from_bound domain 0). lia.
Qed.

(** ** The snippet repository *)

Section Repository.

Variable hostname : string -> option string.

Lemma snippets_put_new s item :
  Snippet.id item = None ->
  snippets_put s item
  = ({| rows := <[generator s := Snippet.with_id item (generator s)]> (rows s);
        generator := generator s + 1 |}, generator s).
Proof. intros Hid. unfold snippets_put. by rewrite Hid. Qed.

Lemma snippets_fresh s :
  snippets_wf s -> rows s !! generator s = None.
Proof.
  intros Hwf. destruct (rows s !! generator s) as [r|] eqn:Hr; [|done].
  destruct (Hwf _ _ Hr). lia.
Qed.

Lemma snippets_put_wf s item :
  snippets_wf s -> snippets_wf (snippets_put s item).1.
Proof.
  intros Hwf k r. unfold snippets_put.
  destruct (Snippet.id item) as [key|] eqn:Hid; simpl.
  - destruct (decide (key = k)) as [->|Hne].
    + rewrite lookup_insert_eq. intros [= <-]. split; [done|].
      case_bool_decide; lia.
    + rewrite lookup_insert_ne by done. intros Hr.
      destruct (Hwf _ _ Hr). split; [done|]. case_bool_decide; lia.
  - destruct (decide (generator s = k)) as [<-|Hne].
    + rewrite lookup_insert_eq. intros [= <-]. split; [done|lia].
    + rewrite lookup_insert_ne by done. intros Hr.
      destruct (Hwf _ _ Hr). split; [done|lia].
Qed.

End Repository.

(** X22. [save] of a snippet that has no id yet stores it under a fresh
    id, the next value of the key generator, and resolves with the snippet
    carrying that id; every snippet that was stored stays as it was. This
    holds whatever the tags are, also when the [learn] call that [save]
    starts is rejected. *)
Theorem save_new_snippet_gets_fresh_id (hostname : string -> option string)
    (d : app_db) (item : Snippet.t) (now : clock) :
  snippets_wf (SNIPPETS d) ->
  Snippet.id item = None ->
  let key := generator (SNIPPETS d) in
  let saved := (SnippetRepository.save hostname d item now).1 in
  let d' := (SnippetRepository.save hostname d item now).2 in
  saved = Snippet.with_id item key /\
  rows (SNIPPETS d) !! key = None /\
  rows (SNIPPETS d') = <[key := saved]> (rows (SNIPPETS d)) /\
  snippets_wf (SNIPPETS d').
Proof.
  intros Hwf Hid key saved d'.
  unfold saved, d', SnippetRepository.save.
  pose proof (snippets_put_wf (SNIPPETS d) item Hwf) as Hwf'.
  rewrite snippets_put_new in * by done. simpl in *.
  split; [done|]. split; [by apply snippets_fresh|]. split; [done|].
  exact Hwf'.
Qed.

Lemma save_new_snippet_gets_fresh_id_witness :
  (SnippetRepository.save (fun _ => None)
     {| SNIPPETS := no_snippets; brain := empty_store |}
     {| Snippet.id := None; Snippet.text := "#a #b"; Snippet.timestamp := 5;
        Snippet.tags := tagsOf ["a"; "b"]; Snippet.meta := None |} (frozen 5)).1
  = {| Snippet.id := Some 1; Snippet.text := "#a #b"; Snippet.timestamp := 5;
       Snippet.tags := tagsOf ["a"; "b"]; Snippet.meta := None |}.
Proof.
  apply (save_new_snippet_gets_fresh_id (fun _ => None)
           {| SNIPPETS := no_snippets; brain := empty_store |}).
  - intros k r. simpl. by rewrite lookup_empty.
  - reflexivity.
Defined.

(** X23. [save] of a snippet that carries the id of a stored snippet
    replaces that snippet and nothing else: the number of snippets and the
    key generator stay, and [save] resolves with the snippet as given. *)
Theorem save_existing_snippet_replaces_it (hostname : string -> option string)
    (d : app_db) (item : Snippet.t) (now : clock) (key : Z) :
  snippets_wf (SNIPPETS d) ->
  Snippet.id item = Some key ->
  is_Some (rows (SNIPPETS d) !! key) ->
  let saved := (SnippetRepository.save hostname d item now).1 in
  let d' := (SnippetRepository.save hostname d item now).2 in
  saved = item /\
  rows (SNIPPETS d') = <[key := item]> (rows (SNIPPETS d)) /\
  size (rows (SNIPPETS d')) = size (rows (SNIPPETS d)) /\
  generator (SNIPPETS d') = generator (SNIPPETS d).
Proof.
  intros Hwf Hid [old Hold] saved d'.
  unfold saved, d', SnippetRepository.save, snippets_put. rewrite Hid. simpl.
  destruct (Hwf _ _ Hold) as [_ Hlt].
  repeat split.
  - destruct item. simpl in *. by subst.
  - apply map_size_insert_Some. by eexists.
  - rewrite bool_decide_eq_false_2 by lia. done.
Qed.

Lemma save_existing_snippet_replaces_it_witness :
  let item1 := {| Snippet.id := None; Snippet.text := "#a #b"; Snippet.timestamp := 5;
                  Snippet.tags := tagsOf ["a"; "b"]; Snippet.meta := None |} in
  let item2 := {| Snippet.id := Some 1; Snippet.text := "#a #c"; Snippet.timestamp := 6;
                  Snippet.tags := tagsOf ["a"; "c"]; Snippet.meta := None |} in
  let d1 := (SnippetRepository.save (fun _ => None)
               {| SNIPPETS := no_snippets; brain := empty_store |} item1
               (frozen 5)).2 in
  size (rows (SNIPPETS (SnippetRepository.save (fun _ => None) d1 item2
                          (frozen 6)).2))
  = size (rows (SNIPPETS d1)).
Proof.
  intros item1 item2 d1.
  apply (save_existing_snippet_replaces_it (fun _ => None) d1 item2 (frozen 6) 1).
  - change (snippets_wf (snippets_put no_snippets item1).1).
    apply snippets_put_wf. intros k r. simpl. by rewrite lookup_empty.
  - reflexivity.
  - vm_compute. by eexists.
Defined.

(** X24. Every [save] teaches the brain again. Saving a new snippet and
    then saving the snippet [save] returned, as the edit dialog and the
    metadata fetch do, leaves one snippet in the store but has added 2 to
    the count of every pair key of its tags, the count of a key the store
    did not hold starting at 0 (a count stops at 2^53, where adding 1 no
    longer changes a number). *)
Theorem resave_counts_pairs_again (hostname : string -> option string)
    (d : app_db) (item : Snippet.t) (t1 t2 : clock) (k : string) :
  snippets_wf (SNIPPETS d) ->
  store_wf (brain d) ->
  Forall valid_key (Snippet.tags item) ->
  Snippet.id item = None ->
  k ∈ pair_keys (Snippet.tags item) ->
  let first := SnippetRepository.save hostname d item t1 in
  let second := SnippetRepository.save hostname first.2 first.1 t2 in
  rows (SNIPPETS second.2)
  = <[generator (SNIPPETS d) := first.1]> (rows (SNIPPETS d)) /\
  (fun r => Number_val (count r)) <$> TAG_STATS (brain second.2) !! k
  = Some (Z.min (default 0 ((fun r => Number_val (count r))
                              <$> TAG_STATS (brain d) !! k) + 2)
                (2 ^ 53)).
Proof.
  intros Hsn Hwf Hvalid Hid Hk first second.
  unfold second, first, SnippetRepository.save.
  rewrite (snippets_put_new (SNIPPETS d) item Hid). simpl.
  split.
  - by rewrite insert_insert_eq.
  - rewrite learned_pair_count by (done || by apply learned_wf).
    f_equal.
    assert (Hfirst : Number_val (pair_count
                (learned (brain d) (Snippet.tags item)
                   (SnippetRepository.domain_of hostname (Snippet.text item)) t1) k)
              = Z.min (pair_count (brain d) k + 1) (2 ^ 53)).
    { pose proof (learned_pair_count (brain d) (Snippet.tags item)
                    (SnippetRepository.domain_of hostname (Snippet.text item))
                    t1 k Hwf Hvalid Hk) as Hc.
      unfold pair_count at 1.
      destruct (TAG_STATS (learned _ _ _ _) !! k) as [r|]; [|done].
      simpl in *. congruence. }
    rewrite Hfirst.
    assert (Hstart : Number_val (pair_count (brain d) k)
              = default 0 ((fun r => Number_val (count r))
                             <$> TAG_STATS (brain d) !! k)).
    { unfold pair_count. by destruct (TAG_STATS (brain d) !! k). }
    rewrite <- Hstart.
    pose proof (number_range (pair_count (brain d) k)). lia.
Qed.

Lemma resave_counts_pairs_again_witness :
  let item := {| Snippet.id := None; Snippet.text := "#a #b"; Snippet.timestamp := 5;
                 Snippet.tags := tagsOf ["a"; "b"]; Snippet.meta := None |} in
  let d := {| SNIPPETS := no_snippets; brain := empty_store |} in
  let first := SnippetRepository.save (fun _ => None) d item (frozen 5) in
  let second := SnippetRepository.save (fun _ => None) first.2 first.1 ticking in
  (fun r => Number_val (count r)) <$> TAG_STATS (brain second.2) !! "a_b" = Some 2.
Proof.
  intros item d first second.
  apply (resave_counts_pairs_again (fun _ => None) d item (frozen 5) ticking "a_b").
  - intros k r. simpl. by rewrite lookup_empty.
  - apply empty_store_wf.
  - apply tagsOf_valid.
  - reflexivity.
  - by apply (bool_decide_unpack _).
Defined.

(** X25. Deleting a snippet does not unlearn it. After [save] of a new
    snippet and [delete] of the id it was given, the snippets are those
    from before the save, while the statistics are those the save left:
    the tags stay registered and the pair and domain counts stay raised. *)
Theorem delete_keeps_what_was_learned (hostname : string -> option string)
    (d : app_db) (item : Snippet.t) (now : clock) :
  snippets_wf (SNIPPETS d) ->
  Snippet.id item = None ->
  let first := SnippetRepository.save hostname d item now in
  let after := SnippetRepository.delete first.2 (generator (SNIPPETS d)) in
  rows (SNIPPETS after) = rows (SNIPPETS d) /\
  SnippetRepository.getAll after = SnippetRepository.getAll d /\
  brain after
  = learned (brain d) (Snippet.tags item)
            (SnippetRepository.domain_of hostname (Snippet.text item)) now.
Proof.
  intros Hsn Hid first after.
  assert (Hrows : rows (SNIPPETS after) = rows (SNIPPETS d)).
  { unfold after, first, SnippetRepository.delete, SnippetRepository.save.
    rewrite snippets_put_new by done. simpl.
    rewrite delete_insert_eq. apply delete_id. by apply snippets_fresh. }
  split; [done|]. split.
  - unfold SnippetRepository.getAll. by rewrite Hrows.
  - unfold after, first, SnippetRepository.delete, SnippetRepository.save.
    by rewrite snippets_put_new by done.
Qed.

Lemma delete_keeps_what_was_learned_witness :
  let item := {| Snippet.id := None; Snippet.text := "#a #b"; Snippet.timestamp := 5;
                 Snippet.tags := tagsOf ["a"; "b"]; Snippet.meta := None |} in
  let d := {| SNIPPETS := no_snippets; brain := empty_store |} in
  let first := SnippetRepository.save (fun _ => None) d item (frozen 5) in
  rows (SNIPPETS (SnippetRepository.delete first.2 1)) = ∅.
Proof.
  intros item d first.
  apply (delete_keeps_what_was_learned (fun _ => None) d item (frozen 5)).
  - intros k r. simpl. by rewrite lookup_empty.
  - reflexivity.
Defined.

(** ** The link filter and the state of [RE.URL] *)

Section LinkFilter.

Lemma url_here_link_only text : link_only text -> url_here text = Some text.
Proof.
  intros (scheme & run & Hscheme & Hrun & Hnospace & ->).
  destruct Hscheme as [-> | ->]; rewrite !append_cons, append_nil_l;
    cbn; unfold url_tail; rewrite Hnospace; by destruct run.
Qed.

(** A search that starts at the end of the text or behind it fails. *)
Lemma url_search_past_end text : forall pos from,
  (String.length text <= from)%nat -> url_search pos from text = None.
Proof.
  induction text as [|c text IH]; intros pos from Hlen.
  - by destruct from.
  - destruct from as [|from]; simpl in Hlen; [lia|].
    cbn [url_search]. apply IH. lia.
Qed.

Lemma url_test_link_only text :
  link_only text -> url_test 0 text = (true, String.length text).
Proof.
  intros Hlink. unfold url_test.
  destruct text as [|c text]; cbn [url_search]; by rewrite url_here_link_only.
Qed.

Lemma includes_empty_search text :
  String_includes (toLowerCase text) (toLowerCase EmptyString) = true.
Proof. by destruct text. Qed.

(** Lists two elements at a time. *)
Lemma list_pair_ind {A} (P : list A -> Prop) :
  P [] -> (forall x, P [x]) -> (forall x y l, P l -> P (x :: y :: l)) ->
  forall l, P l.
Proof.
  intros Hnil Hone Htwo l.
  enough (P l /\ forall x, P (x :: l)) by tauto.
  induction l as [|y l [IH1 IH2]]; [by split|].
  split; [apply IH2|]. intros x. by apply Htwo.
Qed.

(** With an empty search term, a link behind which [RE.URL] starts at 0 is
    found, and the link behind it, no longer than itself, is missed; the
    search is back at 0 for the third. *)
Lemma filterLogic_link_found which s :
  link_only (Snippet.text s) ->
  filterLogic {| AppState.search := EmptyString; AppState.filter := which |} 0 s
  = (if String.eqb which "text" then false
     else match strip_prefix "tag:" which with
          | Some tag => Array_includes (Snippet.tags s) (JStr tag)
          | None => true
          end,
     String.length (Snippet.text s)).
Proof.
  intros Hlink. unfold filterLogic. cbn [AppState.search AppState.filter].
  rewrite includes_empty_search, (url_test_link_only _ Hlink). cbn [negb].
  rewrite andb_false_r, andb_true_r.
  destruct (String.eqb which "text"); [done|].
  destruct (strip_prefix "tag:" which); [|done].
  by destruct (Array_includes _ _).
Qed.

Lemma filterLogic_link_missed which from s :
  (String.length (Snippet.text s) <= from)%nat ->
  filterLogic {| AppState.search := EmptyString; AppState.filter := which |} from s
  = (if String.eqb which "links" then false
     else match strip_prefix "tag:" which with
          | Some tag => Array_includes (Snippet.tags s) (JStr tag)
          | None => true
          end,
     0%nat).
Proof.
  intros Hlen. unfold filterLogic. cbn [AppState.search AppState.filter].
  rewrite includes_empty_search. unfold url_test.
  rewrite url_search_past_end by done. cbn [negb].
  rewrite andb_false_r, andb_true_r.
  destruct (String.eqb which "links"); [done|].
  destruct (strip_prefix "tag:" which); [|done].
  by destruct (Array_includes _ _).
Qed.

Lemma filter_links_every_other (l : list Snippet.t) :
  Forall (fun s => link_only (Snippet.text s)) l ->
  second_no_longer l ->
  filter_snippets {| AppState.search := EmptyString; AppState.filter := "links" |}
                  0 l
  = (every_other true l, odd_one_out l) /\
  filter_snippets {| AppState.search := EmptyString; AppState.filter := "text" |}
                  0 l
  = (every_other false l, odd_one_out l).
Proof.
  induction l as [| x | x y l IH] using list_pair_ind; intros Hlinks Hlen.
  - done.
  - apply Forall_cons in Hlinks as [Hx _].
    split; cbn [filter_snippets]; by rewrite filterLogic_link_found.
  - apply Forall_cons in Hlinks as [Hx [Hy Hl]%Forall_cons].
    destruct Hlen as [Hxy Hlen]. destruct (IH Hl Hlen) as [IHlinks IHtext].
    split; cbn [filter_snippets];
      rewrite filterLogic_link_found by done;
      rewrite filterLogic_link_missed by done;
      cbn [String.eqb Ascii.eqb Bool.eqb strip_prefix];
      fold filter_snippets.
    + by rewrite IHlinks.
    + by rewrite IHtext.
Qed.

End LinkFilter.

(** X26. The link filter depends on where [RE.URL] stopped at the snippet
    before. Take a run of [filterLogic] over a list of snippets that
    starts with [RE.URL.lastIndex] at 0 and with an empty search term,
    every text being one URL and nothing else, and the second text of
    every two (the 2nd, the 4th, ...) no longer than the text before it.
    Then the filter "links" shows the 1st, 3rd, 5th, ... snippet and hides
    the others, and the filter "text" shows exactly those the filter
    "links" hides, although all are links. The run leaves [lastIndex] at 0
    for a list of even length and at the end of the last text for a list
    of odd length. *)
Theorem link_filter_skips_every_other_link (l : list Snippet.t) :
  Forall (fun s => link_only (Snippet.text s)) l ->
  second_no_longer l ->
  filter_snippets {| AppState.search := EmptyString; AppState.filter := "links" |}
                  0 l
  = (every_other true l, odd_one_out l) /\
  filter_snippets {| AppState.search := EmptyString; AppState.filter := "text" |}
                  0 l
  = (every_other false l, odd_one_out l).
Proof. apply filter_links_every_other. Qed.

Lemma link_filter_skips_every_other_link_witness :
  let link t := {| Snippet.id := None; Snippet.text := t; Snippet.timestamp := 0;
                   Snippet.tags := []; Snippet.meta := None |} in
  filter_snippets {| AppState.search := EmptyString; AppState.filter := "links" |}
                  0 [link "https://www.ah.nl"; link "http://smulweb.nl";
                     link "https://www.jumbo.com"]
  = ([link "https://www.ah.nl"; link "https://www.jumbo.com"], 21%nat).
Proof.
  intros link.
  apply (link_filter_skips_every_other_link
           [link "https://www.ah.nl"; link "http://smulweb.nl";
            link "https://www.jumbo.com"]).
  - repeat apply Forall_cons_2; [| | |apply Forall_nil_2].
    + exists "https://", "www.ah.nl". repeat split; (by right) || done.
    + exists "http://", "smulweb.nl". repeat split; (by left) || done.
    + exists "https://", "www.jumbo.com". repeat split; (by right) || done.
  - simpl. lia.
Defined.

(** ** From [learn] to [predict] *)

Section LearnThenPredict.

(** The record of the pair of [a] and [b] awards its count to [b] when
    [a] is the one tag typed. *)
Lemma awards_pair stat a b :
  free_of "_" a = true -> free_of "_" b = true -> a <> b ->
  pair stat = _getPairKey (JStr a) (JStr b) ->
  awards [JStr a] (JStr b) stat = true.
Proof.
  intros Ha Hb Hab Hpair. unfold awards.
  rewrite Hpair, split_pair_key_without_underscore by done.
  assert (Hnot : Array_includes [JStr a] (JStr b) = false).
  { apply bool_decide_eq_false_2.
    intros Hin%list_elem_of_singleton. congruence. }
  assert (Hin : Array_includes [JStr a] (JStr a) = true).
  { apply bool_decide_eq_true_2, list_elem_of_here. }
  destruct (String.ltb b a); unfold Array_at; simpl;
    rewrite Hnot, Hin, (bool_decide_eq_true_2 (JStr b = JStr b)) by done;
    simpl; by rewrite ?andb_false_r, ?orb_true_r.
Qed.

End LearnThenPredict.

(** X27. What was learned together is suggested together: after a call
    of [learn] with valid tags among which the names [a] and [b], two
    different names without an underscore, form a pair, [predict] for
    the one current tag [a] has [b] in its score map, whatever the
    domain and whatever the store held before; when that map holds at
    most five candidates, [b] is among the suggestions returned. *)
Theorem learned_pair_is_suggested `{Engine} (st : store) (tags : list jsval)
    (dom dom' : option string) (now : clock) (a b : string) :
  store_wf st ->
  Forall valid_key tags ->
  free_of "_" a = true -> free_of "_" b = true -> a <> b ->
  _getPairKey (JStr a) (JStr b) ∈ pair_keys tags ->
  let st' := learned st tags dom now in
  let m := final_scores st' [JStr a] dom' in
  JStr b ∈ m.*1 /\
  ((length m <= 5)%nat ->
   exists l, predict (Opened st') [JStr a] dom' = Resolved l /\ JStr b ∈ l).
Proof.
  intros Hwf Hvalid Ha Hb Hab Hkey st' m.
  assert (Hm : JStr b ∈ m.*1).
  { unfold m, final_scores. simpl foldl.
    apply Map_delete_keys. split; [|congruence].
    unfold association_scores. simpl length.
    rewrite bool_decide_eq_true_2 by lia.
    pose proof (learned_TAG_STATS_lookup st tags dom now
                  (_getPairKey (JStr a) (JStr b)) Hwf Hvalid) as Hlook.
    destruct (last_position_elem _ _ Hkey) as [j Hj]. rewrite Hj in Hlook.
    apply association_fold_keys. right. apply Exists_exists.
    eexists. split; [eapply getAll_lookup, Hlook|].
    by apply awards_pair. }
  split; [exact Hm|].
  intros Hlen. eexists. split; [apply predict_opened|].
  fold (final_scores st' [JStr a] dom'). fold m.
  rewrite take_ge.
  - apply list_elem_of_fmap in Hm as (e & -> & He).
    apply list_elem_of_fmap. exists e. split; [done|].
    unfold Map_entries. by rewrite Array_sort_perm.
  - rewrite length_map, Array_sort_length. exact Hlen.
Qed.

Lemma learned_pair_is_suggested_witness :
  exists l,
    predict (Opened (learned empty_store (tagsOf ["pasta"; "italiaans"; "snel"])
                             (Some "ah.nl") ticking))
            [JStr "snel"] None = Resolved l /\
    JStr "pasta" ∈ l.
Proof.
  apply (learned_pair_is_suggested empty_store
           (tagsOf ["pasta"; "italiaans"; "snel"]) (Some "ah.nl") None ticking
           "snel" "pasta").
  - apply empty_store_wf.
  - apply tagsOf_valid.
  - reflexivity.
  - reflexivity.
  - discriminate.
  - vm_compute. apply list_elem_of_further, list_elem_of_here.
  - vm_compute. lia.
Defined.


(** ** The grid and the filter dialog *)

Section Grid.

Lemma sort_insert_newest_first (x : Snippet.t) l :
  StronglySorted (fun a b => Snippet.timestamp b <= Snippet.timestamp a) l ->
  StronglySorted (fun a b => Snippet.timestamp b <= Snippet.timestamp a)
    (sort_insert (fun a b => Snippet.timestamp b - Snippet.timestamp a) x l).
Proof.
  induction 1 as [|y l Hl IH Hy]; simpl.
  - by repeat constructor.
  - case_bool_decide as Hcmp.
    + constructor; [by constructor|].
      constructor; [lia|].
      eapply Forall_impl; [exact Hy|]. simpl. intros z Hz. lia.
    + constructor; [exact IH|].
      apply Forall_forall. intros z Hz.
      rewrite sort_insert_perm in Hz.
      apply elem_of_cons in Hz as [-> | Hz]; [lia|].
      by apply (proj1 (Forall_forall _ _) Hy).
Qed.

Lemma SnippetRepository_getAll_elem (d : app_db) s :
  s ∈ SnippetRepository.getAll d <->
  exists k, rows (SNIPPETS d) !! k = Some s.
Proof.
  unfold SnippetRepository.getAll. rewrite list_elem_of_fmap. split.
  - intros ([k r] & -> & Hin). rewrite merge_sort_Permutation in Hin.
    exists k. by apply elem_of_map_to_list.
  - intros [k Hk]. exists (k, s). split; [done|].
    rewrite merge_sort_Permutation. by apply elem_of_map_to_list.
Qed.

Lemma Set_add_NoDup s v : NoDup s -> NoDup (Set_add s v).
Proof.
  intros Hnd. unfold Set_add. case_bool_decide as Hin; [done|].
  apply NoDup_app. split; [done|]. split; [|apply NoDup_singleton].
  intros x Hx ->%list_elem_of_singleton. done.
Qed.

Lemma Set_add_elem s v x : x ∈ Set_add s v <-> x ∈ s \/ x = v.
Proof.
  unfold Set_add. case_bool_decide as Hin.
  - split; [tauto|]. intros [? | ->]; done.
  - rewrite elem_of_app, list_elem_of_singleton. tauto.
Qed.

Lemma Set_add_all_NoDup (l s : list jsval) :
  NoDup s -> NoDup (foldl Set_add s l).
Proof.
  revert s. induction l as [|v l IH]; intros s Hnd; simpl; [done|].
  by apply IH, Set_add_NoDup.
Qed.

Lemma Set_add_all_elem (l s : list jsval) x :
  x ∈ foldl Set_add s l <-> x ∈ s \/ x ∈ l.
Proof.
  revert s. induction l as [|v l IH]; intros s; simpl.
  - rewrite elem_of_nil. tauto.
  - rewrite IH, Set_add_elem, elem_of_cons. tauto.
Qed.

Lemma available_NoDup (l : list Snippet.t) (s : list jsval) :
  NoDup s ->
  NoDup (foldl (fun available sn => foldl Set_add available (Snippet.tags sn))
               s l).
Proof.
  revert s. induction l as [|sn l IH]; intros s Hnd; simpl; [done|].
  by apply IH, Set_add_all_NoDup.
Qed.

Lemma available_elem (l : list Snippet.t) (s : list jsval) x :
  x ∈ foldl (fun available sn => foldl Set_add available (Snippet.tags sn)) s l
  <-> x ∈ s \/ exists sn, sn ∈ l /\ x ∈ Snippet.tags sn.
Proof.
  revert s. induction l as [|sn l IH]; intros s; simpl.
  - split; [tauto|]. intros [? | (sn & Hin%elem_of_nil & _)]; done.
  - rewrite IH, Set_add_all_elem. split.
    + intros [[? | ?] | (sn' & Hin & Hx)]; [tauto| |].
      * right. exists sn. split; [apply list_elem_of_here|done].
      * right. exists sn'. split; [by apply list_elem_of_further|done].
    + intros [? | (sn' & Hin & Hx)]; [tauto|].
      apply elem_of_cons in Hin as [-> | Hin]; [tauto|].
      right. by exists sn'.
Qed.

(** With an empty search, the filter of a tag's radio button keeps the
    snippets that carry the tag, whatever [RE.URL] remembers. *)
Lemma tag_filter_keeps (tag : string) (l : list Snippet.t) (lastIndex : nat) :
  (filter_snippets {| AppState.search := EmptyString;
                      AppState.filter := tag_filter tag |} lastIndex l).1
  = filter (fun s => JStr tag ∈ Snippet.tags s) l.
Proof.
  revert lastIndex. induction l as [|s l IH]; intros lastIndex; [done|].
  cbn [filter_snippets].
  assert (Hlogic : exists n,
    filterLogic {| AppState.search := EmptyString;
                   AppState.filter := tag_filter tag |} lastIndex s
    = (bool_decide (JStr tag ∈ Snippet.tags s), n)).
  { unfold filterLogic. cbn [AppState.search AppState.filter].
    rewrite includes_empty_search. cbn [negb].
    destruct (url_test lastIndex (Snippet.text s)) as [hasLink n].
    exists n. unfold tag_filter.
    change ("tag:" +:+ tag)
      with (String "t" (String "a" (String "g" (String ":" tag)))).
    cbn [String.eqb Ascii.eqb Bool.eqb andb strip_prefix].
    unfold Array_includes.
    by destruct (bool_decide (JStr tag ∈ Snippet.tags s)). }
  destruct Hlogic as [n ->].
  specialize (IH n).
  destruct (filter_snippets _ n l) as [kept final]. simpl in IH. subst kept.
  rewrite filter_cons. cbn [fst].
  case_bool_decide as Hin.
  - by rewrite decide_True.
  - by rewrite decide_False.
Qed.

End Grid.

(** X28. [loadSnippets] shows every stored snippet exactly once, newest
    first, and the filter dialog then offers every tag carried by a
    stored snippet, and no other, exactly once. *)
Theorem loadSnippets_newest_first_tags_once (d : app_db) :
  let snippets := (loadSnippets d).1 in
  let options := openFilter (loadSnippets d).2 in
  snippets ≡ₚ (map_to_list (rows (SNIPPETS d))).*2 /\
  StronglySorted (fun a b => Snippet.timestamp b <= Snippet.timestamp a)
                 snippets /\
  NoDup options /\
  forall t, t ∈ options <->
            exists k s, rows (SNIPPETS d) !! k = Some s /\ t ∈ Snippet.tags s.
Proof.
  intros snippets options. unfold snippets, options, loadSnippets, openFilter.
  cbn [fst snd]. repeat split.
  - rewrite Array_sort_perm. unfold SnippetRepository.getAll.
    change (map snd) with (fmap (M := list) (@snd Z Snippet.t)).
    by rewrite merge_sort_Permutation.
  - unfold Array_sort.
    induction (SnippetRepository.getAll d) as [|x l IH]; simpl; [constructor|].
    by apply sort_insert_newest_first.
  - rewrite Array_sort_perm. apply available_NoDup, NoDup_nil_2.
  - rewrite Array_sort_perm, available_elem.
    intros [Hin%elem_of_nil | (s & Hs & Ht)]; [done|].
    rewrite Array_sort_perm in Hs.
    apply SnippetRepository_getAll_elem in Hs as [k Hk]. by exists k, s.
  - intros (k & s & Hk & Ht).
    rewrite Array_sort_perm, available_elem. right. exists s.
    split; [|done]. rewrite Array_sort_perm.
    apply SnippetRepository_getAll_elem. by exists k.
Qed.

(** X29. Every tag the filter dialog offers selects something: with an
    empty search, the filter of a tag's radio button keeps exactly the
    loaded snippets that carry the tag, in their order and whatever
    [lastIndex] the URL regex holds, and for a tag name the dialog
    offers this is at least one snippet. *)
Theorem offered_tag_selects_a_snippet (d : app_db) (tag : string)
    (lastIndex : nat) :
  let snippets := (loadSnippets d).1 in
  let shown :=
    (filter_snippets {| AppState.search := EmptyString;
                        AppState.filter := tag_filter tag |}
                     lastIndex snippets).1 in
  shown = filter (fun s => JStr tag ∈ Snippet.tags s) snippets /\
  (JStr tag ∈ openFilter (loadSnippets d).2 -> shown <> []).
Proof.
  intros snippets shown. unfold shown. rewrite tag_filter_keeps.
  split; [done|].
  unfold openFilter, loadSnippets. cbn [snd].
  rewrite Array_sort_perm, available_elem.
  intros [Hin%elem_of_nil | (s & Hs & Ht)]; [done|].
  intros Hnil.
  assert (Hshown : s ∈ filter (fun s => JStr tag ∈ Snippet.tags s) snippets).
  { apply list_elem_of_filter. by split. }
  rewrite Hnil in Hshown. by apply elem_of_nil in Hshown.
Qed.
